(** * prune-ami-snapshots: orphaned EBS snapshot scanner, reporter and deleter

    A shallow embedding of [deploy/bin/prune-ami-snapshots.py].

    - Strings (snapshot ids, image ids, region names, descriptions) are
      [string], i.e. sequences of 8-bit characters.
    - Python dicts keyed by snapshot id are [gmap string _]; Python sets of
      ids are [gset string].
    - Python ints are [Z]; the one float computation of the script (the
      annual cost) is carried out on IEEE-754 binary64 values ([spec_float]
      with 53 bits of precision).
    - The EC2/STS endpoints are an explicit [Cloud] record of responses; the
      script's requests and printed lines are recorded, in order, in a trace
      threaded through a small state-and-exception monad. *)

From Stdlib Require Import ZArith Ascii String List SpecFloat Lia.
From stdpp Require Import gmap strings list fin_maps sorting.

Set Warnings "-clear-no-such-hyp".

Local Open Scope string_scope.
Local Open Scope Z_scope.
Local Open Scope list_scope.

(** ** The [re] fragment used by the two description patterns *)

Module Re.

(** Compiled pattern: a sequence of opcodes, in the manner of [sre]:
    a literal character, a greedy one-or-more repeat of a negated
    character class, and a mark recording a group boundary. *)
Inductive op : Type :=
| Lit (c : ascii)
| Repeat1Not (excluded : list ascii)
| Mark (i : nat).

Definition pattern := list op.

Definition lits (s : string) : pattern := Lit <$> list_ascii_of_string s.

(** [\s] of a byte pattern compiled without flags: [ \t\n\r\f\v]. *)
Definition whitespace : list ascii :=
  [" "; "009"; "010"; "013"; "012"; "011"]%char.

Definition excluded_by (cs : list ascii) (c : ascii) : bool :=
  bool_decide (c ∈ cs).

(** Number of leading characters of [input] accepted by [[^cs]]. *)
Fixpoint run_length (cs : list ascii) (input : list ascii) : nat :=
  match input with
  | c :: input' => if excluded_by cs c then O else S (run_length cs input')
  | [] => O
  end.

(** Greedy repeat with backtracking: consume [k] characters and run the
    rest of the pattern; on failure give one character back, down to a
    single repetition. *)
Fixpoint try_counts {R : Type} (k : nat) (input : list ascii) (pos : nat)
    (cont : list ascii → nat → option R) : option R :=
  match k with
  | O => None
  | S k' =>
      match cont (drop k input) (pos + k)%nat with
      | Some r => Some r
      | None => try_counts k' input pos cont
      end
  end.

(** Marks are kept most recent first, as (mark number, position). *)
Fixpoint exec (p : pattern) (input : list ascii) (pos : nat)
    (marks : list (nat * nat)) : option (list (nat * nat)) :=
  match p with
  | [] => Some marks
  | Lit c :: p' =>
      match input with
      | x :: input' =>
          if bool_decide (x = c) then exec p' input' (S pos) marks else None
      | [] => None
      end
  | Mark i :: p' => exec p' input pos ((i, pos) :: marks)
  | Repeat1Not cs :: p' =>
      try_counts (run_length cs input) input pos
        (λ rest pos', exec p' rest pos' marks)
  end.

Fixpoint mark_pos (i : nat) (marks : list (nat * nat)) : option nat :=
  match marks with
  | (j, pos) :: marks' => if bool_decide (j = i) then Some pos else mark_pos i marks'
  | [] => None
  end.

(** [pattern.match(s)] followed by [m.group(1)] on success: the match is
    anchored at the start of [s]; group 1 lies between marks 0 and 1. *)
Definition match_group (p : pattern) (s : string) : option string :=
  marks ← exec p (list_ascii_of_string s) O [];
  b ← mark_pos 0 marks;
  e ← mark_pos 1 marks;
  Some (string_of_list_ascii (take (e - b) (drop b (list_ascii_of_string s)))).

End Re.

(** [RE_CREATED_AMI = re.compile('Created by CreateImage\([^\)]+\) for (?P<ami>[^\s+]+)')] *)
Definition RE_CREATED_AMI : Re.pattern :=
  (Re.lits "Created by CreateImage(" ++ [Re.Repeat1Not [")"%char]]
   ++ Re.lits ") for "
   ++ [Re.Mark 0; Re.Repeat1Not (Re.whitespace ++ ["+"%char]); Re.Mark 1])%list.

(** [RE_COPIED_AMI = re.compile('Copied for DestinationAmi (?P<ami>[^\s+]+)')] *)
Definition RE_COPIED_AMI : Re.pattern :=
  (Re.lits "Copied for DestinationAmi "
   ++ [Re.Mark 0; Re.Repeat1Not (Re.whitespace ++ ["+"%char]); Re.Mark 1])%list.

(** ** Data returned by the EC2 API *)

(** A [datetime]; only its calendar date is ever printed. *)
Record datetime : Type := {
  year : Z; month : Z; day : Z;
  hour : Z; minute : Z; second : Z
}.

Definition date (t : datetime) : Z * Z * Z := (year t, month t, day t).

(** An element of [describe_snapshots(...)['Snapshots']], with the keys the
    script reads. *)
Record Snapshot : Type := {
  SnapshotId : string;
  Description : string;
  VolumeSize : Z;
  StartTime : datetime
}.

(** An element of [describe_images()['Images']]. *)
Record Image : Type := {
  ImageId : string
}.

(** Exceptions that can leave the script. *)
Inductive exn : Type :=
| ClientError (code : string)
| KeyError (key : string)
| OverflowError
| ValueError.

Definition result (A : Type) : Type := exn + A.

(** [d[k]] on a dict. *)
Definition getitem {A : Type} (d : gmap string A) (k : string) : result A :=
  match d !! k with
  | Some v => inr v
  | None => inl (KeyError k)
  end.

(** ** The scanner's computation on the two listings *)

(** The dict returned for a region that has snapshots. *)
Record RegionReport : Type := {
  region : string;
  ami_count : Z;
  snapshot_count : Z;
  snapshot_to_ami : gmap string string;
  snapshots : gmap string Snapshot;
  snapshots_size : Z;
  snapshots_ami_size : Z;
  orphaned_snapshots : gset string;
  orphaned_size : Z
}.

(** The two shapes of dict [orphaned_ami_snapshots] returns. *)
Inductive ScanResult : Type :=
| EmptyRegion (region : string)
| Scanned (report : RegionReport).

Definition result_region (res : ScanResult) : string :=
  match res with
  | EmptyRegion r => r
  | Scanned rep => region rep
  end.

(** The keys of the returned dict. *)
Definition keys (res : ScanResult) : list string :=
  match res with
  | EmptyRegion _ => ["region"; "empty"]
  | Scanned _ =>
      ["region"; "ami_count"; "snapshot_count"; "snapshot_to_ami"; "snapshots";
       "snapshots_size"; "snapshots_ami_size"; "orphaned_snapshots";
       "orphaned_size"]
  end.

(** [amis = set(); for image in images: amis.add(image['ImageId'])] *)
Definition collect_amis (images : list Image) : gset string :=
  foldl (λ amis image, amis ∪ {[ImageId image]}) ∅ images.

(** One iteration of [for snapshot in snapshots:], acting on
    [(snapshot_to_ami, snapshots_by_id)]. *)
Definition scan_step (acc : gmap string string * gmap string Snapshot)
    (snapshot : Snapshot) : gmap string string * gmap string Snapshot :=
  let '(snapshot_to_ami, snapshots_by_id) := acc in
  let snapshots_by_id := <[SnapshotId snapshot := snapshot]> snapshots_by_id in
  let snapshot_to_ami :=
    match Re.match_group RE_CREATED_AMI (Description snapshot) with
    | Some ami => <[SnapshotId snapshot := ami]> snapshot_to_ami
    | None => snapshot_to_ami
    end in
  let snapshot_to_ami :=
    match Re.match_group RE_COPIED_AMI (Description snapshot) with
    | Some ami => <[SnapshotId snapshot := ami]> snapshot_to_ami
    | None => snapshot_to_ami
    end in
  (snapshot_to_ami, snapshots_by_id).

Definition scan_loop (snaps : list Snapshot)
    : gmap string string * gmap string Snapshot :=
  foldl scan_step (∅, ∅) snaps.

(** [unknown_amis = set(snapshot_to_ami.values()) - amis] *)
Definition unknown_amis_of (snapshot_to_ami : gmap string string)
    (amis : gset string) : gset string :=
  map_img snapshot_to_ami ∖ amis.

(** [{snapshot for snapshot, ami in snapshot_to_ami.items() if ami in unknown_amis}] *)
Definition orphans_of (snapshot_to_ami : gmap string string)
    (unknown_amis : gset string) : gset string :=
  dom (filter (λ kv : string * string, kv.2 ∈ unknown_amis) snapshot_to_ami).

(** [sum(snapshots_by_id[sid]['VolumeSize'] for sid in ids)] *)
Fixpoint sum_volume_sizes (snapshots_by_id : gmap string Snapshot)
    (ids : list string) : result Z :=
  match ids with
  | [] => inr 0
  | sid :: ids' =>
      match getitem snapshots_by_id sid with
      | inl e => inl e
      | inr s =>
          match sum_volume_sizes snapshots_by_id ids' with
          | inl e => inl e
          | inr n => inr (VolumeSize s + n)
          end
      end
  end.

(** [sum(s['VolumeSize'] for s in snapshots)] *)
Definition total_volume_size (snaps : list Snapshot) : Z :=
  foldr (λ s n, VolumeSize s + n) 0 snaps.

(** The body of [orphaned_ami_snapshots] after both listings are in hand.
    Sets and dict keys are iterated in the order of [elements]; the sums do
    not depend on it. *)
Definition build_report (rgn : string) (snaps : list Snapshot)
    (images : list Image) : result RegionReport :=
  let amis := collect_amis images in
  let '(snapshot_to_ami, snapshots_by_id) := scan_loop snaps in
  let unknown_amis := unknown_amis_of snapshot_to_ami amis in
  let orphaned_snapshots := orphans_of snapshot_to_ami unknown_amis in
  match sum_volume_sizes snapshots_by_id (elements orphaned_snapshots) with
  | inl e => inl e
  | inr orphaned_size =>
      match sum_volume_sizes snapshots_by_id
              (elements (dom snapshot_to_ami)) with
      | inl e => inl e
      | inr snapshots_ami_size =>
          inr {| region := rgn;
                 ami_count := Z.of_nat (length images);
                 snapshot_count := Z.of_nat (length snaps);
                 snapshot_to_ami := snapshot_to_ami;
                 snapshots := snapshots_by_id;
                 snapshots_size := total_volume_size snaps;
                 snapshots_ami_size := snapshots_ami_size;
                 orphaned_snapshots := orphaned_snapshots;
                 orphaned_size := orphaned_size |}
      end
  end.

(** ** Binary64 arithmetic for the cost estimate *)

Module Float.

Definition prec : Z := 53.
Definition emax : Z := 1024.

Definition mul : spec_float → spec_float → spec_float := SFmul prec emax.

(** Conversion of an int operand of a float operation: round to nearest
    even; an int beyond the float range raises [OverflowError]. *)
Definition of_int (n : Z) : result spec_float :=
  match binary_normalize prec emax n 0 false with
  | S754_infinity _ => inl OverflowError
  | f => inr f
  end.

(** The literal [0.022]: the binary64 value nearest to 22/1000. *)
Definition lit_0_022 : spec_float :=
  Eval vm_compute in
    SFdiv prec emax (binary_normalize prec emax 22 0 false)
                    (binary_normalize prec emax 1000 0 false).

(** The int [12] as a float operand (exact). *)
Definition lit_12 : spec_float :=
  Eval vm_compute in binary_normalize prec emax 12 0 false.

(** [int(x)], which is what ['%d' % x] prints for a float [x]:
    truncation toward zero. *)
Definition to_int (x : spec_float) : result Z :=
  match x with
  | S754_zero _ => inr 0
  | S754_finite s m e =>
      let magnitude :=
        if (0 <=? e) then Z.pos m * 2 ^ e else Z.pos m / 2 ^ (- e) in
      inr (if s then - magnitude else magnitude)
  | S754_infinity _ => inl OverflowError
  | S754_nan => inl ValueError
  end.

End Float.

(** ** Requests, printed lines and the trace *)

Inductive request : Type :=
| GetCallerIdentity
| DescribeSnapshots (rgn owner_id : string)
| DescribeImages (rgn : string)
| DeleteSnapshot (rgn snap_id : string).

(** One constructor per [print] of the script, with the values substituted
    into its format string. *)
Inductive line : Type :=
| LNoSnapshots (rgn : string)           (* '%s has no snapshots; ignoring\n' *)
| LRegion (rgn : string)                (* '%s:' *)
| LAmis (n : Z)                         (* '%d\tAMIs' *)
| LSnapshots (n : Z)                    (* '%d\tSnapshots' *)
| LSnapshotsSize (n : Z)                (* '%d\tGB Total snapshot storage' *)
| LAmiSnapshots (n : Z)                 (* '%d\tAMI snapshots' *)
| LAmiSnapshotsSize (n : Z)             (* '%d\tGB Total AMI snapshot storage' *)
| LOrphaned (n : Z)                     (* '%d\tOrphaned AMI snapshots' *)
| LOrphanedSize (n : Z)                 (* '%d\tGB Orphaned AMI snapshot storage' *)
| LBlank                                (* '' *)
| LOrphan (snap_id : string) (d : Z * Z * Z) (description : string)
                                        (* '    %s: (%s) %s' *)
| LDeletingFrom (n : Z) (rgn : string)  (* 'deleting %s snapshots from %s' *)
| LDeleting (snap_id : string)          (* 'deleting %s' *)
| LTotalSize (n : Z)                    (* '%d\tGB Total snapshot storage' *)
| LTotalOrphaned (n : Z)                (* '%d\tTotal orphaned AMI snapshots' *)
| LTotalOrphanedSize (n : Z)            (* '%d\tGB Total orphaned snapshot storage' *)
| LTotalCost (n : Z).                   (* '$%d\tEstimated annual storage cost' *)

Inductive event : Type :=
| Call (r : request)
| Print (l : line).

(** What the account looks like from the script: the answer to each
    request it can make. An answer is the outcome of the client call, after
    whatever retries the client performs, and is fixed for the run; with
    distinct region names the script makes each request at most once.
    [get_available_regions] reads the client's bundled endpoint data and
    makes no request. *)
Record Cloud : Type := {
  session_get_available_regions : list string;
  sts_get_caller_identity : result string;
  ec2_describe_snapshots : string → string → result (list Snapshot);
  ec2_describe_images : string → result (list Image);
  ec2_delete_snapshot : string → string → result unit
}.

(** A computation logs the events it performs and either raises or
    returns. *)
Definition M (A : Type) : Type := list event * result A.

#[global] Instance M_ret : MRet M := λ A a, ([], inr a).

#[global] Instance M_bind : MBind M := λ A B f m,
  match m with
  | (t, inl e) => (t, inl e)
  | (t, inr a) => let '(t', r) := f a in (t ++ t', r)
  end.

Definition lift {A : Type} (r : result A) : M A := ([], r).
Definition print (l : line) : M unit := ([Print l], inr tt).
Definition call {A : Type} (rq : request) (response : result A) : M A :=
  ([Call rq], response).

Definition trace {A : Type} (m : M A) : list event := m.1.
Definition outcome {A : Type} (m : M A) : result A := m.2.

(** [for a in l: body(a)] *)
Fixpoint for_each {A : Type} (l : list A) (body : A → M unit) : M unit :=
  match l with
  | [] => mret tt
  | a :: l' => body a ;; for_each l' body
  end.

(** A loop that updates local variables [S]. *)
Fixpoint foldM {A S : Type} (step : S → A → M S) (s : S) (l : list A) : M S :=
  match l with
  | [] => mret s
  | a :: l' => s' ← step s a; foldM step s' l'
  end.

(** [sorted(ids)] on a set of strings. *)
Definition sorted (ids : gset string) : list string :=
  merge_sort String.le (elements ids).

(** ** [orphaned_ami_snapshots] *)

Definition orphaned_ami_snapshots (c : Cloud) (rgn owner_id : string)
    : M ScanResult :=
  snaps ← call (DescribeSnapshots rgn owner_id)
               (ec2_describe_snapshots c rgn owner_id);
  match snaps with
  | [] => mret (EmptyRegion rgn)
  | _ :: _ =>
      images ← call (DescribeImages rgn) (ec2_describe_images c rgn);
      rep ← lift (build_report rgn snaps images);
      mret (Scanned rep)
  end.

(** ** [delete_snapshot]; the client [ec2] is identified by its region. *)

Definition delete_snapshot (c : Cloud) (ec2 : string) (snap_id : string)
    : M unit :=
  print (LDeleting snap_id);;
  call (DeleteSnapshot ec2 snap_id) (ec2_delete_snapshot c ec2 snap_id).

(** ** [main] *)

(** A submitted future, once the pool has run it: the events of the scan
    are logged, its exception (if any) is kept for [f.result()]. The six
    workers' interleaving is not represented: the scans are logged in
    submission order, ahead of the lines printed while the futures are
    consumed. Each scan only depends on its own region's answers. *)
Definition submit {A : Type} (task : M A) : M (result A) :=
  (trace task, inr (outcome task)).

Fixpoint submit_all (c : Cloud) (regions : list string) (owner_id : string)
    : M (list (result ScanResult)) :=
  match regions with
  | [] => mret []
  | rgn :: regions' =>
      f ← submit (orphaned_ami_snapshots c rgn owner_id);
      fs ← submit_all c regions' owner_id;
      mret (f :: fs)
  end.

(** The locals updated by the aggregation loop. *)
Record Totals : Type := {
  results : list RegionReport;
  total_size : Z;
  total_orphaned_size : Z;
  total_orphaned_snapshots : Z
}.

Definition print_orphan (res : RegionReport) (snap_id : string) : M unit :=
  snapshot ← lift (getitem (snapshots res) snap_id);
  print (LOrphan snap_id (date (StartTime snapshot)) (Description snapshot)).

(** Body of [for f in fs:]. *)
Definition aggregate_step (print_orphans : bool) (acc : Totals)
    (f : result ScanResult) : M Totals :=
  res ← lift f;
  match res with
  | EmptyRegion rgn =>            (* 'empty' in res *)
      print (LNoSnapshots rgn);;
      mret acc
  | Scanned res =>
      print (LRegion (region res));;
      print (LAmis (ami_count res));;
      print (LSnapshots (Z.of_nat (size (snapshots res))));;
      print (LSnapshotsSize (snapshots_size res));;
      print (LAmiSnapshots (Z.of_nat (size (snapshot_to_ami res))));;
      print (LAmiSnapshotsSize (snapshots_ami_size res));;
      print (LOrphaned (Z.of_nat (size (orphaned_snapshots res))));;
      print (LOrphanedSize (orphaned_size res));;
      print LBlank;;
      (if print_orphans
       then for_each (sorted (orphaned_snapshots res)) (print_orphan res)
       else mret tt);;
      mret {| results := results acc ++ [res];
              total_size := total_size acc + snapshots_ami_size res;
              total_orphaned_size :=
                total_orphaned_size acc + orphaned_size res;
              total_orphaned_snapshots :=
                total_orphaned_snapshots acc
                + Z.of_nat (size (orphaned_snapshots res)) |}
  end.

Definition initial_totals : Totals :=
  {| results := []; total_size := 0; total_orphaned_size := 0;
     total_orphaned_snapshots := 0 |}.

(** Body of [for res in results:] of the delete phase. The change of the
    client's retry limit has no event of its own: a response of [Cloud] is
    the outcome of a call after the client's retries. *)
Definition delete_orphans (c : Cloud) (res : RegionReport) : M unit :=
  if bool_decide (orphaned_snapshots res = ∅) then mret tt
  else
    print (LDeletingFrom (Z.of_nat (size (orphaned_snapshots res)))
                         (region res));;
    let ec2 := region res in
    for_each (sorted (orphaned_snapshots res)) (delete_snapshot c ec2).

(** [total_cost = 0.022 * 12 * total_orphaned_size] *)
Definition total_cost_of (total_orphaned_size : Z) : result spec_float :=
  match Float.of_int total_orphaned_size with
  | inl e => inl e
  | inr x => inr (Float.mul (Float.mul Float.lit_0_022 Float.lit_12) x)
  end.

Definition final_report (t : Totals) : M unit :=
  total_cost ← lift (total_cost_of (total_orphaned_size t));
  print LBlank;;
  print (LTotalSize (total_size t));;
  print (LTotalOrphaned (total_orphaned_snapshots t));;
  print (LTotalOrphanedSize (total_orphaned_size t));;
  cost ← lift (Float.to_int total_cost);
  print (LTotalCost cost).

(** The [with futures.ThreadPoolExecutor(6) as e:] block: every region is
    submitted, then the futures are consumed in submission order. *)
Definition scan_all (c : Cloud) (regions : list string) (owner_id : string)
    (print_orphans : bool) : M Totals :=
  fs ← submit_all c regions owner_id;
  foldM (aggregate_step print_orphans) initial_totals fs.

Definition main (c : Cloud) (delete print_orphans : bool) : M unit :=
  let regions := session_get_available_regions c in
  owner_id ← call GetCallerIdentity (sts_get_caller_identity c);
  t ← scan_all c regions owner_id print_orphans;
  (if delete then for_each (results t) (delete_orphans c) else mret tt);;
  final_report t.

(** The loop body with the two pattern tests exchanged; used only to state
    that their order is immaterial. *)
Definition scan_step_swapped (acc : gmap string string * gmap string Snapshot)
    (snapshot : Snapshot) : gmap string string * gmap string Snapshot :=
  let '(snapshot_to_ami, snapshots_by_id) := acc in
  let snapshots_by_id := <[SnapshotId snapshot := snapshot]> snapshots_by_id in
  let snapshot_to_ami :=
    match Re.match_group RE_COPIED_AMI (Description snapshot) with
    | Some ami => <[SnapshotId snapshot := ami]> snapshot_to_ami
    | None => snapshot_to_ami
    end in
  let snapshot_to_ami :=
    match Re.match_group RE_CREATED_AMI (Description snapshot) with
    | Some ami => <[SnapshotId snapshot := ami]> snapshot_to_ami
    | None => snapshot_to_ami
    end in
  (snapshot_to_ami, snapshots_by_id).

(** The image id the loop body records for a description, if any. *)
Definition inferred_ami (description : string) : option string :=
  match Re.match_group RE_COPIED_AMI description with
  | Some ami => Some ami
  | None => Re.match_group RE_CREATED_AMI description
  end.

(** ** Vocabulary for the statements *)

Definition Zsum (l : list Z) : Z := foldr Z.add 0 l.

(** Size of the snapshot stored under [sid] ([0] when there is none). *)
Definition volume_of (by_id : gmap string Snapshot) (sid : string) : Z :=
  from_option VolumeSize 0 (by_id !! sid).

(** Strict lexicographic order on ids. *)
Definition id_lt : relation string := strict String.le.

(** The report inside a scan result, if it has one. *)
Definition report_of (res : result ScanResult) : option RegionReport :=
  match res with
  | inr (Scanned rep) => Some rep
  | _ => None
  end.

(** ** A small account used in the worked examples *)

Definition example_time : datetime :=
  {| year := 2017; month := 6; day := 1; hour := 12; minute := 0; second := 0 |}.

Definition example_snapshot (sid description : string) (gb : Z) : Snapshot :=
  {| SnapshotId := sid; Description := description; VolumeSize := gb;
     StartTime := example_time |}.

Definition example_snapshots (rgn : string) : list Snapshot :=
  if bool_decide (rgn = "us-east-1") then
    [ example_snapshot "snap-b" "Created by CreateImage(i-123) for ami-0001" 8;
      example_snapshot "snap-a"
        "Copied for DestinationAmi ami-0003 from us-west-2" 2;
      example_snapshot "snap-c" "nightly backup of build cache" 30 ]
  else if bool_decide (rgn = "eu-west-1") then
    [ example_snapshot "snap-z" "Created by CreateImage(i-7) for ami-0002" 5 ]
  else [].

(** Three regions, the second without snapshots; [ami-0002] is the only
    registered image everywhere. Deleting a snapshot listed in
    [undeletable] is refused. *)
Definition example_cloud (undeletable : list string) : Cloud :=
  {| session_get_available_regions := ["us-east-1"; "us-west-2"; "eu-west-1"];
     sts_get_caller_identity := inr "123456789012";
     ec2_describe_snapshots := λ rgn _, inr (example_snapshots rgn);
     ec2_describe_images := λ _, inr [ {| ImageId := "ami-0002" |} ];
     ec2_delete_snapshot := λ _ sid,
       if bool_decide (sid ∈ undeletable)
       then inl (ClientError "RequestLimitExceeded")
       else inr tt |}.

(** The non-empty region results of a run, in region order. *)
Definition scanned_reports (c : Cloud) (owner_id : string)
    : list RegionReport :=
  omap (λ rgn, report_of (outcome (orphaned_ami_snapshots c rgn owner_id)))
       (session_get_available_regions c).

(** The delete requests a list of region results calls for: regions in
    list order, those without orphans skipped, ids in [sorted] order. *)
Definition delete_plan (reports : list RegionReport)
    : list (string * string) :=
  rep ← filter (λ rep, orphaned_snapshots rep ≠ ∅) reports;
  (λ sid, (region rep, sid)) <$> sorted (orphaned_snapshots rep).

(** The delete requests recorded in a trace, as (region, snapshot id). *)
Definition delete_calls (t : list event) : list (string * string) :=
  omap (λ ev, match ev with
              | Call (DeleteSnapshot rgn sid) => Some (rgn, sid)
              | _ => None
              end) t.

(** Issuing a list of delete requests one after the other, stopping at the
    first refusal: the requests made, and how it ends. *)
Fixpoint attempt (c : Cloud) (plan : list (string * string))
    : list (string * string) * result unit :=
  match plan with
  | [] => ([], inr tt)
  | d :: plan' =>
      match ec2_delete_snapshot c d.1 d.2 with
      | inl e => ([d], inl e)
      | inr _ => let '(made, r) := attempt c plan' in (d :: made, r)
      end
  end.

(** The lines of a completed final report. *)
Definition final_lines (t : Totals) (cost : Z) : list event :=
  [ Print LBlank;
    Print (LTotalSize (total_size t));
    Print (LTotalOrphaned (total_orphaned_snapshots t));
    Print (LTotalOrphanedSize (total_orphaned_size t));
    Print (LTotalCost cost) ].

(** The report of [build_report] in closed form, with the sums written over
    [volume_of]; [build_report] always returns it (lemma
    [build_report_eq]). *)
Definition report_for (rgn : string) (snaps : list Snapshot)
    (images : list Image) : RegionReport :=
  let s2a := (scan_loop snaps).1 in
  let by_id := (scan_loop snaps).2 in
  let orphans := orphans_of s2a (unknown_amis_of s2a (collect_amis images)) in
  {| region := rgn;
     ami_count := Z.of_nat (length images);
     snapshot_count := Z.of_nat (length snaps);
     snapshot_to_ami := s2a;
     snapshots := by_id;
     snapshots_size := total_volume_size snaps;
     snapshots_ami_size := Zsum (volume_of by_id <$> elements (dom s2a));
     orphaned_snapshots := orphans;
     orphaned_size := Zsum (volume_of by_id <$> elements orphans) |}.

(** The report of the example account's first region. *)
Definition example_report : RegionReport :=
  report_for "us-east-1" (example_snapshots "us-east-1")
    [ {| ImageId := "ami-0002" |} ].

Definition example_owner : string := "123456789012".

(** The figure of the last line of the report, for a given total orphaned
    size: [int(0.022 * 12 * total)]. *)
Definition reported_cost (total : Z) : result Z :=
  match total_cost_of total with
  | inl e => inl e
  | inr x => Float.to_int x
  end.

(** The locals of [main] after the scan phase on the example account. *)
Definition example_totals : Totals :=
  {| results :=
       [ example_report;
         report_for "eu-west-1" (example_snapshots "eu-west-1")
           [ {| ImageId := "ami-0002" |} ] ];
     total_size := 15;
     total_orphaned_size := 10;
     total_orphaned_snapshots := 2 |}.

(** ** Vocabulary for the description patterns *)

(** The characters that end the image id: the class excluded by
    [[^\s+]]. *)
Definition ami_stop : list ascii := Re.whitespace ++ ["+"%char].

(** No character of [s] is in [cs]. *)
Definition free_of (cs : list ascii) (s : string) : Prop :=
  ∀ c, c ∈ list_ascii_of_string s → c ∉ cs.

(** [rest] is empty or begins with a character of [cs]. *)
Definition stops_at (cs : list ascii) (rest : string) : Prop :=
  match rest with
  | EmptyString => True
  | String c _ => c ∈ cs
  end.

(** ** Vocabulary for the listing *)

(** The image id recorded for [sid] by a single listed snapshot. *)
Definition ami_for (sid : string) (s : Snapshot) : option string :=
  if decide (SnapshotId s = sid) then inferred_ami (Description s) else None.

(** The description of [s] yields an image id. *)
Definition names_image (s : Snapshot) : Prop :=
  is_Some (inferred_ami (Description s)).

(** The description of [s] yields an image id that is not listed in
    [images]. *)
Definition names_unknown_image (images : list Image) (s : Snapshot) : Prop :=
  match inferred_ami (Description s) with
  | Some ami => ami ∉ ImageId <$> images
  | None => False
  end.

#[global] Instance names_unknown_image_dec images s :
  Decision (names_unknown_image images s).
Proof. unfold names_unknown_image. destruct (inferred_ami _); apply _. Defined.

(** ** Vocabulary for traces *)

(** The lines printed, in order. *)
Definition printed (t : list event) : list line :=
  omap (λ ev, match ev with Print l => Some l | Call _ => None end) t.

Definition is_orphan_line (l : line) : bool :=
  match l with LOrphan _ _ _ => true | _ => false end.

(** Events of the scan phase: listing requests and per-region lines. *)
Definition is_scan_event (ev : event) : bool :=
  match ev with
  | Call (DescribeSnapshots _ _) | Call (DescribeImages _) => true
  | Print (LNoSnapshots _) | Print (LRegion _) | Print (LAmis _)
  | Print (LSnapshots _) | Print (LSnapshotsSize _) | Print (LAmiSnapshots _)
  | Print (LAmiSnapshotsSize _) | Print (LOrphaned _)
  | Print (LOrphanedSize _) | Print LBlank | Print (LOrphan _ _ _) => true
  | _ => false
  end.

(** Events of the delete phase. *)
Definition is_delete_event (ev : event) : bool :=
  match ev with
  | Call (DeleteSnapshot _ _) | Print (LDeletingFrom _ _)
  | Print (LDeleting _) => true
  | _ => false
  end.

(** Lines of the final report. *)
Definition is_total_event (ev : event) : bool :=
  match ev with
  | Print LBlank | Print (LTotalSize _) | Print (LTotalOrphaned _)
  | Print (LTotalOrphanedSize _) | Print (LTotalCost _) => true
  | _ => false
  end.

(** What the delete phase logs for one region result when every request
    is accepted. *)
Definition region_delete_script (rep : RegionReport) : list event :=
  if decide (orphaned_snapshots rep = ∅) then []
  else
    Print (LDeletingFrom (Z.of_nat (size (orphaned_snapshots rep)))
                         (region rep))
    :: (sid ← sorted (orphaned_snapshots rep);
        [Print (LDeleting sid); Call (DeleteSnapshot (region rep) sid)]).

Definition delete_script (reports : list RegionReport) : list event :=
  reports ≫= region_delete_script.

(** The line of the verbose listing for a snapshot. *)
Definition orphan_line (s : Snapshot) : line :=
  LOrphan (SnapshotId s) (date (StartTime s)) (Description s).

(** Everything but the lines of the verbose orphan listing. *)
Definition not_orphan_event (ev : event) : bool :=
  match ev with
  | Print l => negb (is_orphan_line l)
  | Call _ => true
  end.

(** Every orphaned id of a region result has an entry in [snapshots]. *)
Definition well_keyed (rep : RegionReport) : Prop :=
  ∀ sid, sid ∈ orphaned_snapshots rep → is_Some (snapshots rep !! sid).

(** The futures [main] consumes are all outcomes of the scanner. *)
Definition scanned_by (c : Cloud) (owner_id : string)
    (f : result ScanResult) : Prop :=
  ∃ rgn, f = outcome (orphaned_ami_snapshots c rgn owner_id).

(** The lines printed for a region result, before the verbose listing. *)
Definition region_lines (res : RegionReport) : list event :=
  [ Print (LRegion (region res));
    Print (LAmis (ami_count res));
    Print (LSnapshots (Z.of_nat (size (snapshots res))));
    Print (LSnapshotsSize (snapshots_size res));
    Print (LAmiSnapshots (Z.of_nat (size (snapshot_to_ami res))));
    Print (LAmiSnapshotsSize (snapshots_ami_size res));
    Print (LOrphaned (Z.of_nat (size (orphaned_snapshots res))));
    Print (LOrphanedSize (orphaned_size res));
    Print LBlank ].

(** ** Variants of the example account *)

(** The example regions and identity, with the given listings; every
    delete request is accepted. *)
Definition account (snaps : string → result (list Snapshot))
    (images : result (list Image)) : Cloud :=
  {| session_get_available_regions := ["us-east-1"; "us-west-2"; "eu-west-1"];
     sts_get_caller_identity := inr example_owner;
     ec2_describe_snapshots := λ rgn _, snaps rgn;
     ec2_describe_images := λ _, images;
     ec2_delete_snapshot := λ _ _, inr tt |}.

Definition all_example_images : list Image :=
  [ {| ImageId := "ami-0001" |}; {| ImageId := "ami-0002" |};
    {| ImageId := "ami-0003" |} ].

(** The example listing of a region once the snapshots orphaned in
    [example_report] are gone. *)
Definition pruned_snapshots (rgn : string) : list Snapshot :=
  filter (λ s, SnapshotId s ∉ orphaned_snapshots example_report)
         (example_snapshots rgn).

(** An account whose second region cannot be listed. *)
Definition account_with_failing_region : Cloud :=
  account (λ rgn, if bool_decide (rgn = "us-west-2")
                  then inl (ClientError "AuthFailure")
                  else inr (example_snapshots rgn))
          (inr [ {| ImageId := "ami-0002" |} ]).

(** * Properties *)

(** ** The monad *)

(** Binds are rewritten with the equations below rather than unfolded. *)
#[local] Arguments mbind : simpl never.

Section monad_facts.
Context {A B : Type}.
Implicit Types (m : M A) (f : A → M B).

Lemma bind_raise m f e :
  outcome m = inl e → m ≫= f = (trace m, inl e).
Proof. destruct m as [t [e'|a]]; simpl; intros; by simplify_eq. Qed.

Lemma bind_return m f a :
  outcome m = inr a →
  m ≫= f = (trace m ++ trace (f a), outcome (f a)).
Proof.
  destruct m as [t [e'|a']]; simpl; intros; simplify_eq.
  unfold mbind, M_bind. by destruct (f a).
Qed.

Lemma outcome_bind_inr m f b :
  outcome (m ≫= f) = inr b ↔ ∃ a, outcome m = inr a ∧ outcome (f a) = inr b.
Proof.
  destruct m as [t [e|a]]; simpl.
  - split; [done | by intros (? & ? & ?)].
  - unfold mbind, M_bind. destruct (f a) as [t' r] eqn:Hf. simpl. split.
    + intros ->. exists a. by rewrite Hf.
    + intros (a' & ? & Hr). simplify_eq. by rewrite Hf in Hr.
Qed.

Lemma outcome_bind m f :
  outcome (m ≫= f)
  = match outcome m with inr a => outcome (f a) | inl e => inl e end.
Proof.
  destruct m as [t [e|a]]; simpl; [done|].
  unfold mbind, M_bind. by destruct (f a).
Qed.

Lemma trace_bind m f :
  trace (m ≫= f)
  = trace m ++ match outcome m with inr a => trace (f a) | inl _ => [] end.
Proof.
  destruct m as [t [e|a]]; simpl; [by rewrite app_nil_r|].
  unfold mbind, M_bind. by destruct (f a).
Qed.
End monad_facts.

Ltac monad_simpl :=
  repeat (progress (rewrite ?outcome_bind, ?trace_bind; simpl)).

(** ** The description patterns *)

Example created_example :
  Re.match_group RE_CREATED_AMI "Created by CreateImage(i-123) for ami-0001"
  = Some "ami-0001".
Proof. reflexivity. Qed.

Example copied_example :
  Re.match_group RE_COPIED_AMI "Copied for DestinationAmi ami-0003 from us-west-2"
  = Some "ami-0003".
Proof. reflexivity. Qed.

Example created_needs_instance :
  Re.match_group RE_CREATED_AMI "Created by CreateImage() for ami-0001" = None.
Proof. reflexivity. Qed.

Example created_anchored :
  Re.match_group RE_CREATED_AMI " Created by CreateImage(i-1) for ami-0001" = None.
Proof. reflexivity. Qed.

Example created_stops_at_plus :
  Re.match_group RE_CREATED_AMI "Created by CreateImage(i-1) for ami-1+ami-2"
  = Some "ami-1".
Proof. reflexivity. Qed.

Example inferred_ami_examples :
  inferred_ami "Created by CreateImage(i-123) for ami-0001" = Some "ami-0001"
  ∧ inferred_ami "Copied for DestinationAmi ami-0003 from us-west-2"
    = Some "ami-0003"
  ∧ inferred_ami "nightly backup of build cache" = None.
Proof. split_and!; reflexivity. Qed.

Lemma exec_lits_prefix s p input pos marks r :
  Re.exec (Re.lits s ++ p) input pos marks = Some r →
  ∃ rest, input = list_ascii_of_string s ++ rest.
Proof.
  revert input pos. induction s as [|c s IH]; intros input pos; simpl.
  - intros _. by exists input.
  - destruct input as [|x input]; [done|].
    case_bool_decide as Hx; [|done]. subst x.
    intros [rest ->]%IH. by exists rest.
Qed.

Lemma match_group_exec p s ami :
  Re.match_group p s = Some ami →
  ∃ marks, Re.exec p (list_ascii_of_string s) O [] = Some marks.
Proof.
  unfold Re.match_group. destruct (Re.exec _ _ _ _) as [marks|]; [|done].
  intros _. by exists marks.
Qed.

Lemma created_not_copied d ami :
  Re.match_group RE_CREATED_AMI d = Some ami →
  Re.match_group RE_COPIED_AMI d = None.
Proof.
  intros [m1 H1]%match_group_exec.
  destruct (Re.match_group RE_COPIED_AMI d) as [ami'|] eqn:H2; [|done].
  apply match_group_exec in H2 as [m2 H2].
  apply exec_lits_prefix in H1 as [r1 E1].
  apply exec_lits_prefix in H2 as [r2 E2].
  rewrite E1 in E2. simpl in E2. discriminate E2.
Qed.

(** C6. The two description patterns are mutually exclusive: no description
    is matched by both [RE_CREATED_AMI] and [RE_COPIED_AMI]; hence the loop
    body, and so the whole loop, computes the same [snapshot_to_ami] (and
    [snapshots_by_id]) when the two tests are tried in the other order. *)
Theorem patterns_mutually_exclusive :
  (∀ d : string,
     ¬ (is_Some (Re.match_group RE_CREATED_AMI d)
        ∧ is_Some (Re.match_group RE_COPIED_AMI d)))
  ∧ (∀ acc s, scan_step_swapped acc s = scan_step acc s)
  ∧ (∀ snaps, foldl scan_step_swapped (∅, ∅) snaps = scan_loop snaps).
Proof.
  assert (Hex : ∀ d : string,
     ¬ (is_Some (Re.match_group RE_CREATED_AMI d)
        ∧ is_Some (Re.match_group RE_COPIED_AMI d))).
  { intros d [[a Ha] [b Hb]]. apply created_not_copied in Ha. congruence. }
  assert (Hstep : ∀ acc s, scan_step_swapped acc s = scan_step acc s).
  { intros [s2a byid] s. unfold scan_step_swapped, scan_step.
    destruct (Re.match_group RE_CREATED_AMI (Description s)) as [a|] eqn:Ha;
      [|done].
    by rewrite (created_not_copied _ _ Ha). }
  split_and!; [done..|].
  intros snaps. unfold scan_loop. generalize (∅ : gmap string string,
    ∅ : gmap string Snapshot).
  induction snaps as [|s snaps IH]; intros acc; simpl; [done|].
  by rewrite Hstep, IH.
Qed.

(** ** The scanning loop *)

Lemma scan_loop_nil : scan_loop [] = (∅, ∅).
Proof. reflexivity. Qed.

Lemma scan_loop_snoc snaps s :
  scan_loop (snaps ++ [s]) = scan_step (scan_loop snaps) s.
Proof. unfold scan_loop. by rewrite foldl_app. Qed.

Lemma scan_step_ami acc s sid :
  (scan_step acc s).1 !! sid =
    if decide (sid = SnapshotId s)
    then match inferred_ami (Description s) with
         | Some ami => Some ami
         | None => acc.1 !! sid
         end
    else acc.1 !! sid.
Proof.
  destruct acc as [s2a byid]. unfold scan_step, inferred_ami.
  destruct (Re.match_group RE_CREATED_AMI _), (Re.match_group RE_COPIED_AMI _);
    simpl; case_decide; by simplify_map_eq.
Qed.

Lemma scan_step_by_id acc s sid :
  (scan_step acc s).2 !! sid =
    if decide (sid = SnapshotId s) then Some s else acc.2 !! sid.
Proof.
  destruct acc as [s2a byid]. unfold scan_step. simpl.
  case_decide; by simplify_map_eq.
Qed.

Lemma scan_loop_by_id_Some snaps sid s :
  (scan_loop snaps).2 !! sid = Some s → s ∈ snaps ∧ SnapshotId s = sid.
Proof.
  induction snaps as [|x snaps IH] using rev_ind.
  - rewrite scan_loop_nil. simpl. by rewrite lookup_empty.
  - rewrite scan_loop_snoc, scan_step_by_id. case_decide as Hx.
    + intros [= ->]. split; [set_solver | done].
    + intros Hl. destruct (IH Hl). split; [set_solver | done].
Qed.

Lemma scan_loop_by_id_is_Some snaps sid :
  is_Some ((scan_loop snaps).2 !! sid) ↔ sid ∈ SnapshotId <$> snaps.
Proof.
  induction snaps as [|x snaps IH] using rev_ind.
  - rewrite scan_loop_nil. simpl. rewrite lookup_empty.
    split; [by intros [? ?] | by intros ?%elem_of_nil].
  - rewrite scan_loop_snoc, scan_step_by_id, fmap_app, elem_of_app.
    simpl. rewrite list_elem_of_singleton. case_decide; [|tauto].
    split; [tauto | eauto].
Qed.

Lemma scan_loop_ami_Some snaps sid ami :
  (scan_loop snaps).1 !! sid = Some ami →
  ∃ s, s ∈ snaps ∧ SnapshotId s = sid ∧ inferred_ami (Description s) = Some ami.
Proof.
  induction snaps as [|x snaps IH] using rev_ind.
  - rewrite scan_loop_nil. simpl. by rewrite lookup_empty.
  - rewrite scan_loop_snoc, scan_step_ami. case_decide as Hx.
    + destruct (inferred_ami (Description x)) as [a|] eqn:Ha.
      * intros [= ->]. exists x. split_and!; [set_solver | done..].
      * intros (s & ? & ? & ?)%IH. exists s. split_and!; [set_solver | done..].
    + intros (s & ? & ? & ?)%IH. exists s. split_and!; [set_solver | done..].
Qed.

Lemma scan_loop_ami_None snaps sid :
  (∀ s, s ∈ snaps → SnapshotId s = sid → inferred_ami (Description s) = None) →
  (scan_loop snaps).1 !! sid = None.
Proof.
  intros Hnone. destruct (_ !! sid) as [ami|] eqn:Hl; [|done].
  apply scan_loop_ami_Some in Hl as (s & Hs & Hid & Ha).
  by rewrite (Hnone s Hs Hid) in Ha.
Qed.

Lemma scan_loop_ami_NoDup snaps s :
  NoDup (SnapshotId <$> snaps) → s ∈ snaps →
  (scan_loop snaps).1 !! SnapshotId s = inferred_ami (Description s).
Proof.
  induction snaps as [|x snaps IH] using rev_ind; [by intros _ ?%elem_of_nil|].
  rewrite fmap_app, NoDup_app. simpl. intros (Hnd & Hfresh & _).
  rewrite elem_of_app, list_elem_of_singleton, scan_loop_snoc, scan_step_ami.
  intros [Hs | ->].
  - rewrite decide_False; [by apply IH|].
    intros Heq. apply (Hfresh (SnapshotId s)).
    + by apply list_elem_of_fmap_2.
    + rewrite Heq. set_solver.
  - rewrite decide_True by done.
    destruct (inferred_ami (Description x)) as [a|]; [done|].
    apply scan_loop_ami_None. intros s' Hs' Hid.
    exfalso. apply (Hfresh (SnapshotId x)); [|set_solver].
    rewrite <- Hid. by apply list_elem_of_fmap_2.
Qed.

Lemma scan_loop_dom snaps :
  dom (scan_loop snaps).1 ⊆ dom (scan_loop snaps).2.
Proof.
  intros sid [ami (s & Hs & <- & _)%scan_loop_ami_Some]%elem_of_dom.
  apply elem_of_dom, scan_loop_by_id_is_Some. by apply list_elem_of_fmap_2.
Qed.

(** ** Image ids, unknown images and orphans *)

Lemma elem_of_collect_amis images ami :
  ami ∈ collect_amis images ↔ ami ∈ ImageId <$> images.
Proof.
  unfold collect_amis.
  assert (∀ X : gset string,
    ami ∈ foldl (λ amis image, amis ∪ {[ImageId image]}) X images
    ↔ ami ∈ X ∨ ami ∈ ImageId <$> images) as H.
  { induction images as [|i images IH]; intros X; simpl.
    - rewrite elem_of_nil. tauto.
    - rewrite IH, elem_of_cons. set_solver. }
  rewrite H. set_solver.
Qed.

Lemma elem_of_orphans (m : gmap string string) (amis : gset string) sid :
  sid ∈ orphans_of m (unknown_amis_of m amis)
  ↔ ∃ ami, m !! sid = Some ami ∧ ami ∉ amis.
Proof.
  unfold orphans_of, unknown_amis_of. rewrite elem_of_dom. split.
  - intros [ami [Hl Hu]%map_lookup_filter_Some]. simpl in Hu.
    exists ami. set_solver.
  - intros (ami & Hl & Hn). exists ami. apply map_lookup_filter_Some.
    split; [done|]. simpl. apply elem_of_difference. split; [|done].
    apply elem_of_map_img. eauto.
Qed.

Lemma orphans_subseteq (m : gmap string string) (X : gset string) :
  orphans_of m X ⊆ dom m.
Proof. unfold orphans_of. apply dom_filter_subseteq. Qed.

(** ** Sums of volume sizes *)

Lemma Zsum_cons x l : Zsum (x :: l) = x + Zsum l.
Proof. reflexivity. Qed.

Lemma Zsum_app l k : Zsum (l ++ k) = Zsum l + Zsum k.
Proof.
  induction l as [|x l IH]; [done|].
  rewrite <- app_comm_cons, !Zsum_cons, IH. lia.
Qed.

Global Instance Zsum_Permutation : Proper ((≡ₚ) ==> (=)) Zsum.
Proof.
  induction 1 as [|x l k _ IH|x y l|l1 l2 l3 _ IH1 _ IH2];
    rewrite ?Zsum_cons; lia.
Qed.

Lemma Zsum_submseteq {A : Type} (f : A → Z) (l k : list A) :
  l ⊆+ k → (∀ x, x ∈ k → 0 ≤ f x) → Zsum (f <$> l) ≤ Zsum (f <$> k).
Proof.
  induction 1 as [|x l k _ IH|x y l|x l k _ IH|l1 l2 l3 H12 IH1 H23 IH2];
    intros Hpos; rewrite ?fmap_cons, ?Zsum_cons.
  - lia.
  - specialize (IH (λ y Hy, Hpos y (list_elem_of_further _ _ _ Hy))). lia.
  - lia.
  - specialize (IH (λ y Hy, Hpos y (list_elem_of_further _ _ _ Hy))).
    pose proof (Hpos x (list_elem_of_here _ _)). lia.
  - specialize (IH2 Hpos).
    specialize (IH1 (λ y Hy, Hpos y (elem_of_submseteq _ _ _ Hy H23))). lia.
Qed.

Lemma sum_volume_sizes_ok by_id ids :
  (∀ sid, sid ∈ ids → is_Some (by_id !! sid)) →
  sum_volume_sizes by_id ids = inr (Zsum (volume_of by_id <$> ids)).
Proof.
  induction ids as [|sid ids IH]; intros Hin; simpl; [done|].
  destruct (Hin sid) as [s Hs]; [set_solver|].
  unfold getitem, volume_of at 1. rewrite Hs, IH; [done|].
  intros ? ?. apply Hin. set_solver.
Qed.

Lemma total_volume_size_Zsum snaps :
  total_volume_size snaps = Zsum (VolumeSize <$> snaps).
Proof.
  induction snaps as [|s snaps IH]; [done|].
  by rewrite fmap_cons, Zsum_cons, <- IH.
Qed.

Lemma volume_sum_omap by_id ids :
  Zsum (volume_of by_id <$> ids)
  = Zsum (VolumeSize <$> omap (λ sid, by_id !! sid) ids).
Proof.
  induction ids as [|sid ids IH]; [done|].
  rewrite fmap_cons, Zsum_cons, IH. simpl. unfold volume_of.
  by destruct (by_id !! sid).
Qed.

Lemma NoDup_omap_lookup (by_id : gmap string Snapshot) ids :
  (∀ sid s, by_id !! sid = Some s → SnapshotId s = sid) →
  NoDup ids → NoDup (omap (λ sid, by_id !! sid) ids).
Proof.
  intros Hid. induction 1 as [|sid ids Hfresh _ IH]; simpl; [constructor|].
  destruct (by_id !! sid) as [s|] eqn:Hs; [|done].
  constructor; [|done].
  intros (sid' & Hin & Hs')%list_elem_of_omap.
  apply Hid in Hs, Hs'. congruence.
Qed.

(** ** [build_report] *)

Lemma build_report_eq rgn snaps images :
  build_report rgn snaps images = inr (report_for rgn snaps images).
Proof.
  unfold build_report, report_for.
  pose proof (scan_loop_dom snaps) as Hdom.
  destruct (scan_loop snaps) as [s2a by_id].
  simpl in *.
  rewrite !sum_volume_sizes_ok; [done|..].
  - intros sid Hin%elem_of_elements. apply elem_of_dom. set_solver.
  - intros sid Hin%elem_of_elements. apply elem_of_dom.
    pose proof (orphans_subseteq s2a
      (unknown_amis_of s2a (collect_amis images))). set_solver.
Qed.

Lemma scanner_inv c rgn owner_id rep :
  outcome (orphaned_ami_snapshots c rgn owner_id) = inr (Scanned rep) →
  ∃ snaps images,
    ec2_describe_snapshots c rgn owner_id = inr snaps ∧ snaps ≠ []
    ∧ ec2_describe_images c rgn = inr images
    ∧ build_report rgn snaps images = inr rep.
Proof.
  unfold orphaned_ami_snapshots, call, lift.
  destruct (ec2_describe_snapshots c rgn owner_id) as [e|[|s snaps]];
    monad_simpl; [done..|].
  destruct (ec2_describe_images c rgn) as [e|images]; monad_simpl; [done|].
  destruct (build_report rgn (s :: snaps) images) as [e|rep'] eqn:Hb;
    monad_simpl; [done|].
  intros [= ->]. by exists (s :: snaps), images.
Qed.

(** Once both listings have been obtained the scanner returns a report: no
    [KeyError] can arise from its dict lookups. *)
Lemma scanner_returns c rgn owner_id s snaps images :
  ec2_describe_snapshots c rgn owner_id = inr (s :: snaps) →
  ec2_describe_images c rgn = inr images →
  ∃ rep, orphaned_ami_snapshots c rgn owner_id
         = ([Call (DescribeSnapshots rgn owner_id); Call (DescribeImages rgn)],
            inr (Scanned rep))
         ∧ build_report rgn (s :: snaps) images = inr rep.
Proof.
  intros Hs Hi. unfold orphaned_ami_snapshots, call, lift. rewrite Hs, Hi.
  pose proof (build_report_eq rgn (s :: snaps) images) as Hb. simpl in Hb.
  eexists. split; [|exact Hb]. unfold mbind, M_bind. simpl. by rewrite Hb.
Qed.

(** ** Loops in the monad *)

Lemma for_each_cons {A : Type} (a : A) (l : list A) (body : A → M unit) :
  for_each (a :: l) body = (body a ;; for_each l body).
Proof. reflexivity. Qed.

Lemma foldM_cons {A S : Type} (step : S → A → M S) (s : S) (a : A) l :
  foldM step s (a :: l) = (s' ← step s a; foldM step s' l).
Proof. reflexivity. Qed.

Lemma submit_all_cons c rgn regions owner_id :
  submit_all c (rgn :: regions) owner_id
  = (f ← submit (orphaned_ami_snapshots c rgn owner_id);
     fs ← submit_all c regions owner_id;
     mret (f :: fs)).
Proof. reflexivity. Qed.

Lemma for_each_ok {A : Type} (l : list A) (body : A → M unit) :
  (∀ a, a ∈ l → outcome (body a) = inr tt) →
  outcome (for_each l body) = inr tt.
Proof.
  induction l as [|a l IH]; intros Hok; simpl; [done|].
  apply outcome_bind_inr. exists tt. split.
  - apply Hok. set_solver.
  - apply IH. intros ? ?. apply Hok. set_solver.
Qed.

Lemma elem_of_sorted (ids : gset string) sid : sid ∈ sorted ids ↔ sid ∈ ids.
Proof. unfold sorted. by rewrite merge_sort_Permutation, elem_of_elements. Qed.

Lemma NoDup_sorted (ids : gset string) : NoDup (sorted ids).
Proof. unfold sorted. rewrite merge_sort_Permutation. apply NoDup_elements. Qed.

(** ** The scanner's result *)

(** C1. For every non-empty region result of the scanner, a snapshot id is
    in the orphaned set iff [snapshot_to_ami] gives it an image id and that
    image id is not among the image ids listed for the region. In
    particular, when snapshot ids are distinct in the listing, a snapshot
    whose description yields an image id is orphaned exactly when that id
    is absent from the listed images; so for the description
    ["Created by CreateImage(i-123) for ami-0001"], exactly when [ami-0001]
    is absent. *)
Theorem orphaned_iff_image_unknown c rgn owner_id rep :
  outcome (orphaned_ami_snapshots c rgn owner_id) = inr (Scanned rep) →
  ∃ snaps images,
    ec2_describe_snapshots c rgn owner_id = inr snaps
    ∧ ec2_describe_images c rgn = inr images
    ∧ (∀ sid, sid ∈ orphaned_snapshots rep
              ↔ ∃ ami, snapshot_to_ami rep !! sid = Some ami
                       ∧ ami ∉ ImageId <$> images)
    ∧ (∀ s ami, NoDup (SnapshotId <$> snaps) → s ∈ snaps →
         inferred_ami (Description s) = Some ami →
         (SnapshotId s ∈ orphaned_snapshots rep ↔ ami ∉ ImageId <$> images))
    ∧ (∀ s, NoDup (SnapshotId <$> snaps) → s ∈ snaps →
         Description s = "Created by CreateImage(i-123) for ami-0001" →
         (SnapshotId s ∈ orphaned_snapshots rep
          ↔ "ami-0001" ∉ ImageId <$> images)).
Proof.
  intros (snaps & images & Hs & _ & Hi & Hb)%scanner_inv.
  exists snaps, images. rewrite build_report_eq in Hb.
  injection Hb as <-. simpl.
  assert (Hiff : ∀ sid,
    sid ∈ orphans_of (scan_loop snaps).1
            (unknown_amis_of (scan_loop snaps).1 (collect_amis images))
    ↔ ∃ ami, (scan_loop snaps).1 !! sid = Some ami ∧ ami ∉ ImageId <$> images).
  { intros sid. rewrite elem_of_orphans.
    by setoid_rewrite elem_of_collect_amis. }
  assert (Hgen : ∀ s ami, NoDup (SnapshotId <$> snaps) → s ∈ snaps →
    inferred_ami (Description s) = Some ami →
    (SnapshotId s ∈ orphans_of (scan_loop snaps).1
            (unknown_amis_of (scan_loop snaps).1 (collect_amis images))
     ↔ ami ∉ ImageId <$> images)).
  { intros s ami Hnd Hin Hami. rewrite Hiff.
    rewrite (scan_loop_ami_NoDup _ _ Hnd Hin), Hami. split.
    - by intros (? & [= <-] & ?).
    - intros ?. by exists ami. }
  split_and!; [done..|].
  intros s Hnd Hin Hd. apply Hgen; [done..|]. by rewrite Hd.
Qed.

(** C2. A snapshot whose description matches neither pattern leaves
    [snapshot_to_ami] untouched when the loop processes it; and an id all of
    whose snapshots in the listing have such descriptions is neither a key
    of [snapshot_to_ami] nor a member of the orphaned set, whatever images
    the region has. *)
Theorem unmatched_description_ignored :
  (∀ acc s,
     Re.match_group RE_CREATED_AMI (Description s) = None →
     Re.match_group RE_COPIED_AMI (Description s) = None →
     (scan_step acc s).1 = acc.1)
  ∧ (∀ c rgn owner_id rep snaps sid,
       outcome (orphaned_ami_snapshots c rgn owner_id) = inr (Scanned rep) →
       ec2_describe_snapshots c rgn owner_id = inr snaps →
       (∀ s, s ∈ snaps → SnapshotId s = sid →
          Re.match_group RE_CREATED_AMI (Description s) = None
          ∧ Re.match_group RE_COPIED_AMI (Description s) = None) →
       snapshot_to_ami rep !! sid = None ∧ sid ∉ orphaned_snapshots rep).
Proof.
  split.
  - intros [s2a by_id] s Hc Hd. unfold scan_step. by rewrite Hc, Hd.
  - intros c rgn owner_id rep snaps sid Hrun Hs Hnone.
    apply scanner_inv in Hrun as (snaps' & images & Hs' & _ & _ & Hb).
    rewrite Hs in Hs'. injection Hs' as <-.
    rewrite build_report_eq in Hb. injection Hb as <-. simpl.
    assert ((scan_loop snaps).1 !! sid = None) as Hl.
    { apply scan_loop_ami_None. intros s Hin Hid.
      destruct (Hnone s Hin Hid) as [Hc Hd]. unfold inferred_ami.
      by rewrite Hd, Hc. }
    split; [done|]. rewrite elem_of_orphans, Hl. by intros (? & ? & ?).
Qed.

(** C3. In every non-empty region result, [orphaned_size] is the sum of
    the [VolumeSize] of the snapshots stored under the ids of the orphaned
    set, each id counted once: it is the sum over any duplicate-free
    enumeration of exactly the orphaned ids, every one of which has a
    snapshot. It is zero when the orphaned set is empty. *)
Theorem orphaned_size_is_sum c rgn owner_id rep :
  outcome (orphaned_ami_snapshots c rgn owner_id) = inr (Scanned rep) →
  (∀ ids : list string,
     NoDup ids → (∀ sid, sid ∈ ids ↔ sid ∈ orphaned_snapshots rep) →
     (∀ sid, sid ∈ ids → is_Some (snapshots rep !! sid))
     ∧ orphaned_size rep = Zsum (volume_of (snapshots rep) <$> ids))
  ∧ (orphaned_snapshots rep = ∅ → orphaned_size rep = 0).
Proof.
  intros (snaps & images & _ & _ & _ & Hb)%scanner_inv.
  rewrite build_report_eq in Hb. injection Hb as <-. simpl.
  set (orphans := orphans_of _ _). split.
  - intros ids Hnd Hids. split.
    + intros sid Hin%Hids. apply elem_of_dom.
      pose proof (scan_loop_dom snaps).
      pose proof (orphans_subseteq (scan_loop snaps).1
        (unknown_amis_of (scan_loop snaps).1 (collect_amis images))).
      set_solver.
    + assert (ids ≡ₚ elements orphans) as ->; [|done].
      apply NoDup_Permutation; [done | apply NoDup_elements|].
      intros sid. by rewrite Hids, elem_of_elements.
  - intros ->. by rewrite elements_empty.
Qed.

(** C4. When the snapshot listing of a region is empty, the scanner makes
    the snapshot-list request and nothing else (in particular no image-list
    request), and returns the dict with just the keys ['region'] and
    ['empty']: none of the counts, sizes or mappings. *)
Theorem empty_region_short_circuit c rgn owner_id :
  ec2_describe_snapshots c rgn owner_id = inr [] →
  orphaned_ami_snapshots c rgn owner_id
    = ([Call (DescribeSnapshots rgn owner_id)], inr (EmptyRegion rgn))
  ∧ (∀ r, Call (DescribeImages r)
          ∉ trace (orphaned_ami_snapshots c rgn owner_id))
  ∧ (∀ res, outcome (orphaned_ami_snapshots c rgn owner_id) = inr res →
       result_region res = rgn ∧ keys res = ["region"; "empty"]
       ∧ report_of (inr res) = None).
Proof.
  intros Hs. unfold orphaned_ami_snapshots, call. rewrite Hs. simpl.
  split_and!; [done|..].
  - intros r [?|?%elem_of_nil]%elem_of_cons; [discriminate | done].
  - by intros res [= <-].
Qed.

Lemma print_orphan_ok rep sid :
  is_Some (snapshots rep !! sid) → outcome (print_orphan rep sid) = inr tt.
Proof.
  intros [s Hs]. unfold print_orphan, lift, getitem. by rewrite Hs.
Qed.

(** C10. Every non-empty region result satisfies
    [orphaned_snapshots ⊆ keys of snapshot_to_ami ⊆ keys of snapshots]; so
    every orphaned id has an entry in [snapshots] and the verbose orphan
    listing completes without a [KeyError]. With the volume sizes of the
    listing non-negative,
    [orphaned_size <= snapshots_ami_size <= snapshots_size]. *)
Theorem containment_chain c rgn owner_id rep snaps :
  outcome (orphaned_ami_snapshots c rgn owner_id) = inr (Scanned rep) →
  ec2_describe_snapshots c rgn owner_id = inr snaps →
  orphaned_snapshots rep ⊆ dom (snapshot_to_ami rep)
  ∧ dom (snapshot_to_ami rep) ⊆ dom (snapshots rep)
  ∧ (∀ sid, sid ∈ orphaned_snapshots rep → is_Some (snapshots rep !! sid))
  ∧ outcome (for_each (sorted (orphaned_snapshots rep)) (print_orphan rep))
    = inr tt
  ∧ ((∀ s, s ∈ snaps → 0 ≤ VolumeSize s) →
     orphaned_size rep ≤ snapshots_ami_size rep
     ∧ snapshots_ami_size rep ≤ snapshots_size rep).
Proof.
  intros Hrun Hs.
  apply scanner_inv in Hrun as (snaps' & images & Hs' & _ & _ & Hb).
  rewrite Hs in Hs'. injection Hs' as <-.
  rewrite build_report_eq in Hb.
  pose proof (scan_loop_dom snaps) as Hdom.
  pose proof (orphans_subseteq (scan_loop snaps).1
    (unknown_amis_of (scan_loop snaps).1 (collect_amis images))) as Horph.
  assert (Hkeys : ∀ sid, sid ∈ orphaned_snapshots rep →
                         is_Some (snapshots rep !! sid)).
  { injection Hb as <-. simpl. intros sid Hin. apply elem_of_dom. set_solver. }
  split_and!; [by injection Hb as <-..| done | |].
  - apply for_each_ok. intros sid Hin%elem_of_sorted.
    by apply print_orphan_ok, Hkeys.
  - intros Hpos. injection Hb as <-. simpl. clear Hkeys.
    assert (Hvol : ∀ sid, 0 ≤ volume_of (scan_loop snaps).2 sid).
    { intros sid. unfold volume_of.
      destruct (_ !! sid) as [s|] eqn:Hl; simpl; [|done].
      apply scan_loop_by_id_Some in Hl as [? _]. by apply Hpos. }
    split.
    + apply Zsum_submseteq; [|done].
      apply NoDup_submseteq; [apply NoDup_elements|].
      intros sid. rewrite !elem_of_elements. set_solver.
    + rewrite volume_sum_omap, total_volume_size_Zsum.
      apply Zsum_submseteq; [|done].
      apply NoDup_submseteq.
      * apply NoDup_omap_lookup; [|apply NoDup_elements].
        intros sid s Hl. by apply scan_loop_by_id_Some in Hl as [_ ?].
      * intros s (sid & _ & Hl)%list_elem_of_omap.
        by apply scan_loop_by_id_Some in Hl as [? _].
Qed.

(** ** The scan phase of [main] *)

Lemma delete_calls_app t1 t2 :
  delete_calls (t1 ++ t2) = delete_calls t1 ++ delete_calls t2.
Proof. apply omap_app. Qed.

Lemma scanner_no_deletes c rgn owner_id :
  delete_calls (trace (orphaned_ami_snapshots c rgn owner_id)) = [].
Proof.
  unfold orphaned_ami_snapshots, call, lift.
  destruct (ec2_describe_snapshots c rgn owner_id) as [e|[|s snaps]];
    monad_simpl; [done..|].
  destruct (ec2_describe_images c rgn) as [e|images]; monad_simpl; [done|].
  by destruct (build_report rgn (s :: snaps) images).
Qed.

Lemma submit_all_spec c regions owner_id :
  outcome (submit_all c regions owner_id)
  = inr ((λ rgn, outcome (orphaned_ami_snapshots c rgn owner_id)) <$> regions)
  ∧ delete_calls (trace (submit_all c regions owner_id)) = [].
Proof.
  induction regions as [|rgn regions [IHo IHt]]; [done|].
  rewrite submit_all_cons. monad_simpl.
  rewrite !delete_calls_app, IHo, IHt, scanner_no_deletes. by monad_simpl.
Qed.

Lemma print_orphans_no_deletes rep ids :
  delete_calls (trace (for_each ids (print_orphan rep))) = [].
Proof.
  induction ids as [|sid ids IH]; [done|].
  rewrite for_each_cons, trace_bind, delete_calls_app.
  assert (delete_calls (trace (print_orphan rep sid)) = []) as ->.
  { unfold print_orphan, lift, getitem. by destruct (snapshots rep !! sid). }
  by destruct (outcome (print_orphan rep sid)).
Qed.

Lemma aggregate_step_no_deletes po acc f :
  delete_calls (trace (aggregate_step po acc f)) = [].
Proof.
  unfold aggregate_step, lift. destruct f as [e|[rgn|rep]]; [done..|].
  monad_simpl. rewrite delete_calls_app.
  destruct po; monad_simpl; [|done].
  rewrite print_orphans_no_deletes.
  by destruct (outcome (for_each _ _)).
Qed.

Lemma aggregate_step_inr po acc f t :
  outcome (aggregate_step po acc f) = inr t →
  (∃ res, f = inr res)
  ∧ results t = results acc ++ option_list (report_of f)
  ∧ total_size t
    = total_size acc + Zsum (snapshots_ami_size <$> option_list (report_of f))
  ∧ total_orphaned_size t
    = total_orphaned_size acc
      + Zsum (orphaned_size <$> option_list (report_of f))
  ∧ total_orphaned_snapshots t
    = total_orphaned_snapshots acc
      + Zsum ((λ rep, Z.of_nat (size (orphaned_snapshots rep)))
              <$> option_list (report_of f)).
Proof.
  unfold aggregate_step, lift. destruct f as [e|[rgn|rep]]; [done|..].
  - monad_simpl. intros [= <-]. rewrite app_nil_r.
    split_and!; eauto; unfold Zsum; simpl; lia.
  - monad_simpl.
    destruct (outcome (if po then _ else _)) as [e|[]]; simpl; [done|].
    intros [= <-]. simpl. split_and!; eauto; unfold Zsum; simpl; lia.
Qed.

Lemma aggregate_no_deletes po fs acc :
  delete_calls (trace (foldM (aggregate_step po) acc fs)) = [].
Proof.
  revert acc. induction fs as [|f fs IH]; intros acc; [done|].
  rewrite foldM_cons, trace_bind, delete_calls_app, aggregate_step_no_deletes.
  destruct (outcome (aggregate_step po acc f)); [done|]. apply IH.
Qed.

Lemma omap_cons_option_list {A B : Type} (f : A → option B) x l :
  omap f (x :: l) = option_list (f x) ++ omap f l.
Proof. simpl. by destruct (f x). Qed.

Lemma aggregate_inr po fs acc t :
  outcome (foldM (aggregate_step po) acc fs) = inr t →
  results t = results acc ++ omap report_of fs
  ∧ total_size t
    = total_size acc + Zsum (snapshots_ami_size <$> omap report_of fs)
  ∧ total_orphaned_size t
    = total_orphaned_size acc + Zsum (orphaned_size <$> omap report_of fs)
  ∧ total_orphaned_snapshots t
    = total_orphaned_snapshots acc
      + Zsum ((λ rep, Z.of_nat (size (orphaned_snapshots rep)))
              <$> omap report_of fs).
Proof.
  revert acc. induction fs as [|f fs IH]; intros acc.
  - simpl. intros [= <-]. rewrite app_nil_r. unfold Zsum. simpl.
    split_and!; [done|lia..].
  - rewrite foldM_cons, outcome_bind.
    destruct (outcome (aggregate_step po acc f)) as [e|acc'] eqn:Hstep;
      [done|].
    apply aggregate_step_inr in Hstep as (_ & Hr & Hs & Ho & Hn).
    intros (Hr' & Hs' & Ho' & Hn')%IH.
    rewrite Hr', Hs', Ho', Hn', Hr, Hs, Ho, Hn.
    rewrite omap_cons_option_list, !fmap_app, !Zsum_app, app_assoc.
    split_and!; [done|lia..].
Qed.

Lemma omap_fmap {A B C : Type} (f : B → option C) (g : A → B) (l : list A) :
  omap f (g <$> l) = omap (λ a, f (g a)) l.
Proof. induction l as [|a l IH]; csimpl; [done|]. by rewrite IH. Qed.

Lemma scan_all_no_deletes c regions owner_id po :
  delete_calls (trace (scan_all c regions owner_id po)) = [].
Proof.
  unfold scan_all. rewrite trace_bind, delete_calls_app.
  destruct (submit_all_spec c regions owner_id) as [-> ->].
  apply aggregate_no_deletes.
Qed.

Lemma scan_all_inr c owner_id po t :
  outcome (scan_all c (session_get_available_regions c) owner_id po) = inr t →
  results t = scanned_reports c owner_id
  ∧ total_size t = Zsum (snapshots_ami_size <$> scanned_reports c owner_id)
  ∧ total_orphaned_size t
    = Zsum (orphaned_size <$> scanned_reports c owner_id)
  ∧ total_orphaned_snapshots t
    = Zsum ((λ rep, Z.of_nat (size (orphaned_snapshots rep)))
            <$> scanned_reports c owner_id).
Proof.
  unfold scan_all, scanned_reports. rewrite outcome_bind.
  destruct (submit_all_spec c (session_get_available_regions c) owner_id)
    as [-> _].
  intros H%aggregate_inr. by rewrite omap_fmap in H.
Qed.

(** ** The delete phase *)

Lemma attempt_app c l1 l2 :
  attempt c (l1 ++ l2) =
    match attempt c l1 with
    | (made, inr _) => ((made ++ (attempt c l2).1), (attempt c l2).2)
    | (made, inl e) => (made, inl e)
    end.
Proof.
  induction l1 as [|d l1 IH]; simpl; [by destruct (attempt c l2)|].
  destruct (ec2_delete_snapshot c d.1 d.2) as [e|[]]; [done|].
  rewrite IH. by destruct (attempt c l1) as [made [e|[]]].
Qed.

Lemma attempt_prefix c plan : (attempt c plan).1 `prefix_of` plan.
Proof.
  induction plan as [|d plan IH]; simpl; [done|].
  destruct (ec2_delete_snapshot c d.1 d.2) as [e|[]]; simpl.
  - by apply prefix_cons, prefix_nil.
  - destruct (attempt c plan). by apply prefix_cons.
Qed.

Lemma attempt_ok c plan :
  (attempt c plan).2 = inr tt →
  (attempt c plan).1 = plan
  ∧ ∀ d, d ∈ plan → ec2_delete_snapshot c d.1 d.2 = inr tt.
Proof.
  induction plan as [|d plan IH]; simpl.
  - intros _. split; [done|]. by intros d ?%elem_of_nil.
  - destruct (ec2_delete_snapshot c d.1 d.2) as [e|[]] eqn:Hd; [done|].
    destruct (attempt c plan) as [made r]. simpl in *.
    intros [-> Hall]%IH. split; [done|].
    intros d' [->|?]%elem_of_cons; [done|by apply Hall].
Qed.

Lemma attempt_fail c pre d post e :
  (∀ d', d' ∈ pre → ec2_delete_snapshot c d'.1 d'.2 = inr tt) →
  ec2_delete_snapshot c d.1 d.2 = inl e →
  attempt c (pre ++ d :: post) = (pre ++ [d], inl e).
Proof.
  intros Hpre Hd. induction pre as [|d' pre IH]; simpl.
  - by rewrite Hd.
  - rewrite (Hpre d') by set_solver. rewrite IH; [done|].
    intros ? ?. apply Hpre. set_solver.
Qed.

Lemma delete_region_attempt c rgn ids :
  (delete_calls (trace (for_each ids (delete_snapshot c rgn))),
   outcome (for_each ids (delete_snapshot c rgn)))
  = attempt c ((λ sid, (rgn, sid)) <$> ids).
Proof.
  induction ids as [|sid ids IH]; [done|].
  rewrite for_each_cons, fmap_cons, trace_bind, outcome_bind, delete_calls_app.
  simpl. rewrite <- IH. unfold delete_snapshot at 1 2 3, call.
  monad_simpl. by destruct (ec2_delete_snapshot c rgn sid) as [e|[]].
Qed.

Lemma delete_plan_cons rep reports :
  delete_plan (rep :: reports)
  = (if decide (orphaned_snapshots rep = ∅) then []
     else (λ sid, (region rep, sid)) <$> sorted (orphaned_snapshots rep))
    ++ delete_plan reports.
Proof.
  unfold delete_plan. rewrite filter_cons. by case_decide; case_decide.
Qed.

Lemma delete_orphans_attempt c rep :
  (delete_calls (trace (delete_orphans c rep)), outcome (delete_orphans c rep))
  = attempt c
      (if decide (orphaned_snapshots rep = ∅) then []
       else (λ sid, (region rep, sid)) <$> sorted (orphaned_snapshots rep)).
Proof.
  unfold delete_orphans. case_bool_decide as He.
  - by rewrite decide_True.
  - rewrite decide_False by done. monad_simpl. apply delete_region_attempt.
Qed.

Lemma delete_phase_attempt c reports :
  (delete_calls (trace (for_each reports (delete_orphans c))),
   outcome (for_each reports (delete_orphans c)))
  = attempt c (delete_plan reports).
Proof.
  induction reports as [|rep reports IH]; [done|].
  rewrite for_each_cons, delete_plan_cons, attempt_app, <- IH,
    <- delete_orphans_attempt, trace_bind, outcome_bind, delete_calls_app.
  simpl. destruct (outcome (delete_orphans c rep)) as [e|[]]; [|done].
  by rewrite app_nil_r.
Qed.

(** ** [sorted] *)

Lemma sorted_strict (ids : gset string) : StronglySorted id_lt (sorted ids).
Proof.
  pose proof (NoDup_sorted ids) as Hnd.
  assert (StronglySorted String.le (sorted ids)) as Hs.
  { unfold sorted. apply StronglySorted_merge_sort; apply _. }
  induction Hs as [|x l _ IH Hall]; [constructor|].
  apply NoDup_cons in Hnd as [Hx Hnd]. constructor; [by apply IH|].
  apply Forall_forall. intros y Hy. split.
  - by apply (proj1 (Forall_forall _ _) Hall).
  - intros Hyx. apply Hx.
    assert (x = y) as ->; [|done].
    apply (anti_symm String.le); [|done].
    by apply (proj1 (Forall_forall _ _) Hall).
Qed.

Example sorted_example :
  sorted {[ "snap-0b"; "snap-10"; "snap-0a"; "snap-1" ]}
  = ["snap-0a"; "snap-0b"; "snap-1"; "snap-10"].
Proof. vm_compute. reflexivity. Qed.

(** ** The final report and [main] *)

Lemma final_report_inr t :
  outcome (final_report t) = inr tt →
  ∃ x cost, total_cost_of (total_orphaned_size t) = inr x
            ∧ Float.to_int x = inr cost
            ∧ trace (final_report t) = final_lines t cost.
Proof.
  unfold final_report, lift, print.
  destruct (total_cost_of (total_orphaned_size t)) as [e|x]; monad_simpl;
    [done|].
  destruct (Float.to_int x) as [e|cost] eqn:Hcost; [done|].
  intros _. by exists x, cost.
Qed.

Lemma final_report_no_deletes t : delete_calls (trace (final_report t)) = [].
Proof.
  unfold final_report, lift, print.
  destruct (total_cost_of (total_orphaned_size t)) as [e|x]; monad_simpl;
    [done|].
  by destruct (Float.to_int x) as [e|cost].
Qed.

Lemma main_inr c delete po :
  outcome (main c delete po) = inr tt →
  ∃ owner_id t x cost pre,
    sts_get_caller_identity c = inr owner_id
    ∧ outcome (scan_all c (session_get_available_regions c) owner_id po)
      = inr t
    ∧ (delete = true →
       attempt c (delete_plan (results t)) = (delete_plan (results t), inr tt))
    ∧ total_cost_of (total_orphaned_size t) = inr x
    ∧ Float.to_int x = inr cost
    ∧ trace (main c delete po) = pre ++ final_lines t cost.
Proof.
  unfold main, call. rewrite !outcome_bind, !trace_bind. simpl.
  destruct (sts_get_caller_identity c) as [e|owner_id]; [done|].
  rewrite !outcome_bind, !trace_bind.
  destruct (outcome (scan_all _ _ _ _)) as [e|t] eqn:Hscan; [done|].
  rewrite !outcome_bind, !trace_bind.
  destruct (outcome (if delete then _ else _)) as [e|[]] eqn:Hdel; [done|].
  intros (x & cost & Hx & Hcost & Htr)%final_report_inr.
  exists owner_id, t, x, cost,
    (Call GetCallerIdentity
       :: trace (scan_all c (session_get_available_regions c) owner_id po)
       ++ trace (if delete then for_each (results t) (delete_orphans c)
                 else mret tt)).
  split_and!; [done..| |done|done|].
  - intros ->. pose proof (delete_phase_attempt c (results t)) as Ha.
    rewrite Hdel in Ha.
    destruct (attempt_ok c (delete_plan (results t))) as [Hmade _].
    { by rewrite <- Ha. }
    rewrite <- Ha in Hmade |- *. simpl in Hmade. by rewrite Hmade.
  - rewrite Htr. simpl. by rewrite <- app_assoc.
Qed.

Lemma main_deletes c po :
  (delete_calls (trace (main c true po)), outcome (main c true po))
  = match sts_get_caller_identity c with
    | inl e => ([], inl e)
    | inr owner_id =>
        match outcome (scan_all c (session_get_available_regions c)
                         owner_id po) with
        | inl e => ([], inl e)
        | inr t =>
            match attempt c (delete_plan (results t)) with
            | (made, inl e) => (made, inl e)
            | (made, inr _) => (made, outcome (final_report t))
            end
        end
    end.
Proof.
  unfold main, call. rewrite !outcome_bind, !trace_bind. simpl.
  destruct (sts_get_caller_identity c) as [e|owner_id]; [done|].
  rewrite !outcome_bind, !trace_bind, !delete_calls_app, scan_all_no_deletes.
  destruct (outcome (scan_all _ _ _ _)) as [e|t] eqn:Hscan; [done|].
  rewrite !outcome_bind, !trace_bind, !delete_calls_app.
  rewrite <- delete_phase_attempt. simpl.
  destruct (outcome (for_each _ _)) as [e|[]]; [by rewrite app_nil_r|].
  by rewrite final_report_no_deletes, app_nil_r.
Qed.

Lemma main_no_delete_requested c po :
  delete_calls (trace (main c false po)) = [].
Proof.
  unfold main, call. rewrite !trace_bind. simpl.
  destruct (sts_get_caller_identity c) as [e|owner_id]; [done|].
  rewrite !trace_bind, !delete_calls_app, scan_all_no_deletes.
  destruct (outcome (scan_all _ _ _ _)) as [e|t]; [done|].
  rewrite !trace_bind, !delete_calls_app. simpl.
  by rewrite final_report_no_deletes.
Qed.

(** C5. On a run that completes, the grand total of orphaned snapshot
    storage printed in the final report is the sum of [orphaned_size] over
    the non-empty region results, in region order; regions without
    snapshots have no report and add nothing. *)
Theorem grand_total_is_sum c delete po :
  outcome (main c delete po) = inr tt →
  ∃ owner_id pre cost,
    sts_get_caller_identity c = inr owner_id
    ∧ trace (main c delete po)
      = pre ++ [ Print (LTotalOrphanedSize
                          (Zsum (orphaned_size <$> scanned_reports c owner_id)));
                 Print (LTotalCost cost) ].
Proof.
  intros (owner_id & t & x & cost & pre & Hid & Hscan & _ & _ & _ & Htr)%main_inr.
  apply scan_all_inr in Hscan as (_ & _ & Htotal & _).
  exists owner_id,
    (pre ++ [ Print LBlank; Print (LTotalSize (total_size t));
              Print (LTotalOrphaned (total_orphaned_snapshots t)) ]), cost.
  split; [done|]. rewrite Htr, <- Htotal, <- app_assoc. reflexivity.
Qed.

(** C7. With deletion requested, the delete requests of a run are, in
    order, a prefix of the plan built from the non-empty region results in
    result order, skipping the regions whose orphaned set is empty and
    listing each region's orphaned ids in [sorted] order; on a run that
    completes they are the whole plan. [sorted] lists every id of the set
    exactly once, in strictly ascending order. Without the delete flag no
    delete request is made. *)
Theorem deleter_call_sequence c po owner_id :
  sts_get_caller_identity c = inr owner_id →
  delete_calls (trace (main c true po))
    `prefix_of` delete_plan (scanned_reports c owner_id)
  ∧ (outcome (main c true po) = inr tt →
     delete_calls (trace (main c true po))
     = delete_plan (scanned_reports c owner_id))
  ∧ (∀ ids : gset string,
       StronglySorted id_lt (sorted ids) ∧ NoDup (sorted ids)
       ∧ ∀ sid, sid ∈ sorted ids ↔ sid ∈ ids)
  ∧ delete_calls (trace (main c false po)) = [].
Proof.
  intros Hid. pose proof (main_deletes c po) as Hm. rewrite Hid in Hm.
  split_and!.
  - destruct (outcome (scan_all _ _ _ _)) as [e|t] eqn:Hscan.
    + injection Hm as -> _. apply prefix_nil.
    + apply scan_all_inr in Hscan as (<- & _).
      pose proof (attempt_prefix c (delete_plan (results t))) as Hp.
      destruct (attempt c _) as [made [e|[]]]; by injection Hm as -> _.
  - intros Hok. rewrite Hok in Hm.
    destruct (outcome (scan_all _ _ _ _)) as [e|t] eqn:Hscan; [done|].
    apply scan_all_inr in Hscan as (<- & _).
    destruct (attempt_ok c (delete_plan (results t))) as [Hall _].
    + by destruct (attempt c _) as [made [e|[]]].
    + destruct (attempt c _) as [made [e|[]]]; [done|].
      injection Hm as -> _. done.
  - intros ids. split_and!;
      [apply sorted_strict | apply NoDup_sorted | apply elem_of_sorted].
  - apply main_no_delete_requested.
Qed.

(** C8. If, after a successful scan phase, the delete request [d] is the
    first of the plan to be refused, with error [e], then [main] raises
    exactly [e], and the delete requests made are those before [d] followed
    by [d] itself, once: nothing is retried and no request of the rest of
    the plan, in this region or a later one, is made. *)
Theorem delete_failure_aborts c po owner_id t pre d post e :
  sts_get_caller_identity c = inr owner_id →
  outcome (scan_all c (session_get_available_regions c) owner_id po) = inr t →
  delete_plan (results t) = pre ++ d :: post →
  (∀ d', d' ∈ pre → ec2_delete_snapshot c d'.1 d'.2 = inr tt) →
  ec2_delete_snapshot c d.1 d.2 = inl e →
  outcome (main c true po) = inl e
  ∧ delete_calls (trace (main c true po)) = pre ++ [d]
  ∧ (d ∉ pre)
  ∧ results t = scanned_reports c owner_id.
Proof.
  intros Hid Hscan Hplan Hpre Hd.
  pose proof (main_deletes c po) as Hm.
  rewrite Hid, Hscan, Hplan, (attempt_fail _ _ _ _ _ Hpre Hd) in Hm.
  injection Hm as -> ->. split_and!; [done..| |].
  - intros Hin. specialize (Hpre d Hin). congruence.
  - by apply scan_all_inr in Hscan as (? & _).
Qed.

(** ** The cost estimate *)

(** [0.022] is the binary64 number nearest to 22/1000: its distance to
    22/1000 is at most half a unit in the last place. *)
Example lit_0_022_nearest :
  Float.lit_0_022 = S754_finite false 6341068275337658 (-58)
  ∧ 2 ^ 52 ≤ 6341068275337658 < 2 ^ 53
  ∧ 2 * Z.abs (1000 * 6341068275337658 - 22 * 2 ^ 58) ≤ 1000.
Proof. split_and!; [reflexivity | lia..]. Qed.

Example lit_12_exact :
  Float.lit_12 = S754_finite false 6755399441055744 (-49)
  ∧ 6755399441055744 = 12 * 2 ^ 49.
Proof. split; [reflexivity | lia]. Qed.

(** [Float.to_int] truncates toward zero. *)
Lemma to_int_truncates s m e :
  ∃ mag, Float.to_int (S754_finite s m e) = inr (if s then - mag else mag)
         ∧ 0 ≤ mag
         ∧ (0 ≤ e → mag = Z.pos m * 2 ^ e)
         ∧ (e < 0 → mag * 2 ^ (- e) ≤ Z.pos m < (mag + 1) * 2 ^ (- e)).
Proof.
  unfold Float.to_int. destruct (Z.leb_spec 0 e) as [He|He].
  - exists (Z.pos m * 2 ^ e). split_and!; [done| |done|lia].
    apply Z.mul_nonneg_nonneg; [lia|]. by apply Z.pow_nonneg.
  - exists (Z.pos m / 2 ^ (- e)).
    assert (0 < 2 ^ (- e)) by (apply Z.pow_pos_nonneg; lia).
    split_and!; [done| |lia|].
    + apply Z.div_pos; lia.
    + intros _. split.
      * rewrite Z.mul_comm. apply Z.mul_div_le. lia.
      * rewrite Z.mul_comm. apply Z.mul_succ_div_gt. lia.
Qed.

Example cost_examples :
  reported_cost 1 = inr 0
  ∧ reported_cost 10 = inr 2
  ∧ reported_cost 125 = inr 33
  ∧ reported_cost 1000 = inr 264
  ∧ reported_cost (2 ^ 1024) = inl OverflowError.
Proof. split_and!; vm_compute; reflexivity. Qed.

(** C9 (as stated, refuted). In the example account the total orphaned
    size is 10 GB; the run completes and its last line reports [2], which is
    strictly below [0.022 * 12 * 10]: the reported figure is not the
    product itself. *)
Lemma reported_cost_is_not_the_product :
  outcome (main (example_cloud []) false false) = inr tt
  ∧ Zsum (orphaned_size <$> scanned_reports (example_cloud []) example_owner)
    = 10
  ∧ last (trace (main (example_cloud []) false false))
    = Some (Print (LTotalCost 2))
  ∧ ∃ x two, total_cost_of 10 = inr x ∧ Float.of_int 2 = inr two
             ∧ SFcompare two x = Some Lt.
Proof.
  split_and!; [vm_compute; reflexivity..|].
  eexists _, _. split_and!; vm_compute; reflexivity.
Qed.

(** C9 (amended). On every run that completes, the figure on the last
    line of the report is [int(0.022 * 12 * total_orphaned_size)]: the
    binary64 product of the constants [0.022] and [12] and of the total
    orphaned size (the sum of [orphaned_size] over the non-empty region
    results), truncated toward zero by the [%d] format. No request is
    involved in computing it. *)
Theorem reported_cost_is_truncated_product c delete po :
  outcome (main c delete po) = inr tt →
  ∃ owner_id y cost,
    sts_get_caller_identity c = inr owner_id
    ∧ Float.of_int (Zsum (orphaned_size <$> scanned_reports c owner_id))
      = inr y
    ∧ Float.to_int (Float.mul (Float.mul Float.lit_0_022 Float.lit_12) y)
      = inr cost
    ∧ last (trace (main c delete po)) = Some (Print (LTotalCost cost)).
Proof.
  intros (owner_id & t & x & cost & pre & Hid & Hscan & _ & Hx & Hc & Htr)%main_inr.
  apply scan_all_inr in Hscan as (_ & _ & Htotal & _).
  rewrite Htotal in Hx. unfold total_cost_of in Hx.
  destruct (Float.of_int _) as [e|y] eqn:Hy; [done|]. injection Hx as <-.
  exists owner_id, y, cost. split_and!; [done..|].
  rewrite Htr. unfold final_lines.
  by rewrite (last_app_cons _ _ _), !last_cons_cons.
Qed.

(** * Worked instances on the example account *)

Ltac by_decide := apply (bool_decide_unpack _); vm_compute; exact I.

Lemma orphaned_iff_image_unknown_witness :
  outcome (orphaned_ami_snapshots (example_cloud []) "us-east-1" example_owner)
  = inr (Scanned example_report)
  ∧ "snap-b" ∈ orphaned_snapshots example_report.
Proof.
  assert (Hrun : outcome (orphaned_ami_snapshots (example_cloud []) "us-east-1"
                            example_owner) = inr (Scanned example_report))
    by (vm_compute; reflexivity).
  split; [exact Hrun|].
  destruct (orphaned_iff_image_unknown _ _ _ _ Hrun)
    as (snaps & images & Hs & Hi & _ & _ & Hex).
  injection Hs as <-. injection Hi as <-.
  apply (Hex (example_snapshot "snap-b"
                "Created by CreateImage(i-123) for ami-0001" 8)).
  - by_decide.
  - vm_compute. constructor.
  - reflexivity.
  - by_decide.
Defined.

Lemma unmatched_description_ignored_witness :
  outcome (orphaned_ami_snapshots (example_cloud []) "us-east-1" example_owner)
  = inr (Scanned example_report)
  ∧ snapshot_to_ami example_report !! "snap-c" = None
  ∧ "snap-c" ∉ orphaned_snapshots example_report.
Proof.
  assert (Hrun : outcome (orphaned_ami_snapshots (example_cloud []) "us-east-1"
                            example_owner) = inr (Scanned example_report))
    by (vm_compute; reflexivity).
  split; [exact Hrun|].
  apply (proj2 unmatched_description_ignored (example_cloud []) "us-east-1"
           example_owner example_report (example_snapshots "us-east-1"));
    [exact Hrun | reflexivity |].
  intros s Hin Hid.
  change (example_snapshots "us-east-1") with
    [ example_snapshot "snap-b" "Created by CreateImage(i-123) for ami-0001" 8;
      example_snapshot "snap-a"
        "Copied for DestinationAmi ami-0003 from us-west-2" 2;
      example_snapshot "snap-c" "nightly backup of build cache" 30 ] in Hin.
  rewrite !elem_of_cons, elem_of_nil in Hin.
  destruct Hin as [->|[->|[->|[]]]]; [discriminate Hid..|].
  split; vm_compute; reflexivity.
Defined.

Lemma orphaned_size_is_sum_witness :
  outcome (orphaned_ami_snapshots (example_cloud []) "us-east-1" example_owner)
  = inr (Scanned example_report)
  ∧ orphaned_size example_report
    = Zsum (volume_of (snapshots example_report) <$> ["snap-b"; "snap-a"])
  ∧ orphaned_size example_report = 10.
Proof.
  assert (Hrun : outcome (orphaned_ami_snapshots (example_cloud []) "us-east-1"
                            example_owner) = inr (Scanned example_report))
    by (vm_compute; reflexivity).
  split; [exact Hrun|].
  destruct (orphaned_size_is_sum _ _ _ _ Hrun) as [Hsum _].
  destruct (Hsum ["snap-b"; "snap-a"]) as [_ Heq].
  - by_decide.
  - assert (orphaned_snapshots example_report
            = list_to_set ["snap-b"; "snap-a"]) as ->
      by (vm_compute; reflexivity).
    intros sid. by rewrite elem_of_list_to_set.
  - split; [exact Heq | vm_compute; reflexivity].
Defined.

Lemma empty_region_short_circuit_witness :
  ec2_describe_snapshots (example_cloud []) "us-west-2" example_owner = inr []
  ∧ orphaned_ami_snapshots (example_cloud []) "us-west-2" example_owner
    = ([Call (DescribeSnapshots "us-west-2" example_owner)],
       inr (EmptyRegion "us-west-2")).
Proof.
  split; [reflexivity|].
  apply (empty_region_short_circuit (example_cloud []) "us-west-2"
           example_owner).
  reflexivity.
Defined.

Lemma grand_total_is_sum_witness :
  outcome (main (example_cloud []) true true) = inr tt
  ∧ ∃ pre cost,
      trace (main (example_cloud []) true true)
      = pre ++ [ Print (LTotalOrphanedSize 10); Print (LTotalCost cost) ].
Proof.
  assert (Hrun : outcome (main (example_cloud []) true true) = inr tt)
    by (vm_compute; reflexivity).
  split; [exact Hrun|].
  destruct (grand_total_is_sum _ _ _ Hrun)
    as (owner_id & pre & cost & Hid & Htr).
  injection Hid as <-. exists pre, cost. exact Htr.
Defined.

Lemma deleter_call_sequence_witness :
  sts_get_caller_identity (example_cloud []) = inr example_owner
  ∧ delete_calls (trace (main (example_cloud []) true false))
    = [("us-east-1", "snap-a"); ("us-east-1", "snap-b")].
Proof.
  split; [reflexivity|].
  destruct (deleter_call_sequence (example_cloud []) false example_owner)
    as (_ & Hall & _); [reflexivity|].
  rewrite Hall; vm_compute; reflexivity.
Defined.

Lemma containment_chain_witness :
  outcome (orphaned_ami_snapshots (example_cloud []) "us-east-1" example_owner)
  = inr (Scanned example_report)
  ∧ orphaned_size example_report ≤ snapshots_ami_size example_report
  ∧ snapshots_ami_size example_report ≤ snapshots_size example_report.
Proof.
  assert (Hrun : outcome (orphaned_ami_snapshots (example_cloud []) "us-east-1"
                            example_owner) = inr (Scanned example_report))
    by (vm_compute; reflexivity).
  split; [exact Hrun|].
  destruct (containment_chain (example_cloud []) "us-east-1" example_owner
              example_report (example_snapshots "us-east-1") Hrun eq_refl)
    as (_ & _ & _ & _ & Hle).
  apply Hle. intros s Hin.
  change (example_snapshots "us-east-1") with
    [ example_snapshot "snap-b" "Created by CreateImage(i-123) for ami-0001" 8;
      example_snapshot "snap-a"
        "Copied for DestinationAmi ami-0003 from us-west-2" 2;
      example_snapshot "snap-c" "nightly backup of build cache" 30 ] in Hin.
  rewrite !elem_of_cons, elem_of_nil in Hin.
  destruct Hin as [->|[->|[->|[]]]]; simpl; lia.
Defined.

Lemma reported_cost_is_truncated_product_witness :
  outcome (main (example_cloud []) false false) = inr tt
  ∧ last (trace (main (example_cloud []) false false))
    = Some (Print (LTotalCost 2)).
Proof.
  assert (Hrun : outcome (main (example_cloud []) false false) = inr tt)
    by (vm_compute; reflexivity).
  split; [exact Hrun|].
  destruct (reported_cost_is_truncated_product _ _ _ Hrun)
    as (owner_id & y & cost & Hid & Hy & Hcost & Hlast).
  rewrite Hlast. injection Hid as <-.
  vm_compute in Hy. injection Hy as <-.
  vm_compute in Hcost. injection Hcost as <-. reflexivity.
Defined.

Lemma delete_failure_aborts_witness :
  ec2_delete_snapshot (example_cloud ["snap-b"]) "us-east-1" "snap-b"
  = inl (ClientError "RequestLimitExceeded")
  ∧ outcome (main (example_cloud ["snap-b"]) true false)
    = inl (ClientError "RequestLimitExceeded")
  ∧ delete_calls (trace (main (example_cloud ["snap-b"]) true false))
    = [("us-east-1", "snap-a"); ("us-east-1", "snap-b")].
Proof.
  split; [reflexivity|].
  destruct (delete_failure_aborts (example_cloud ["snap-b"]) false
              example_owner example_totals
              [("us-east-1", "snap-a")] ("us-east-1", "snap-b") []
              (ClientError "RequestLimitExceeded"))
    as (Hout & Hcalls & _).
  - reflexivity.
  - vm_compute. reflexivity.
  - vm_compute. reflexivity.
  - intros d' Hin. apply list_elem_of_singleton in Hin as ->. reflexivity.
  - reflexivity.
  - split; [exact Hout | exact Hcalls].
Defined.

(** * Further properties *)

(** ** What the description patterns capture *)

Lemma list_ascii_of_string_app (a b : string) :
  list_ascii_of_string (a +:+ b)
  = list_ascii_of_string a ++ list_ascii_of_string b.
Proof. induction a as [|c a IH]; simpl; [done|]. by rewrite IH. Qed.

Lemma string_of_list_ascii_app (a b : list ascii) :
  string_of_list_ascii (a ++ b)
  = string_of_list_ascii a +:+ string_of_list_ascii b.
Proof. induction a as [|c a IH]; simpl; [done|]. by rewrite IH. Qed.

Lemma run_length_split cs input :
  Forall (λ c, c ∉ cs) (take (Re.run_length cs input) input)
  ∧ match drop (Re.run_length cs input) input with
    | [] => True
    | c :: _ => c ∈ cs
    end.
Proof.
  induction input as [|c input [IH1 IH2]]; simpl; [by split|].
  unfold Re.excluded_by. case_bool_decide as Hc; simpl; [by split|].
  split; [by constructor | done].
Qed.

Lemma run_length_app cs a r :
  Forall (λ c, c ∉ cs) a →
  match r with [] => True | c :: _ => c ∈ cs end →
  Re.run_length cs (a ++ r) = length a.
Proof.
  intros Ha Hr. induction Ha as [|c a Hc _ IH]; simpl.
  - destruct r as [|c r]; simpl; [done|].
    unfold Re.excluded_by. by rewrite bool_decide_eq_true_2.
  - unfold Re.excluded_by. rewrite bool_decide_eq_false_2 by done.
    by rewrite IH.
Qed.

Lemma run_length_inside cs input k :
  (k < Re.run_length cs input)%nat →
  ∃ c r, drop k input = c :: r ∧ c ∉ cs.
Proof.
  revert k. induction input as [|c input IH]; intros k; simpl; [lia|].
  unfold Re.excluded_by. case_bool_decide as Hc; [lia|].
  destruct k as [|k]; simpl; [by eauto|].
  intros Hk. apply IH. lia.
Qed.

Lemma exec_lits_app s p rest pos marks :
  Re.exec (Re.lits s ++ p) (list_ascii_of_string s ++ rest) pos marks
  = Re.exec p rest (pos + String.length s) marks.
Proof.
  revert pos. induction s as [|c s IH]; intros pos; simpl.
  - by rewrite Nat.add_0_r.
  - rewrite bool_decide_eq_true_2 by done. rewrite IH. f_equal. lia.
Qed.

Lemma exec_lits_inv s p input pos marks r :
  Re.exec (Re.lits s ++ p) input pos marks = Some r →
  ∃ rest, input = list_ascii_of_string s ++ rest
          ∧ Re.exec p rest (pos + String.length s) marks = Some r.
Proof.
  intros H. destruct (exec_lits_prefix _ _ _ _ _ _ H) as [rest ->].
  exists rest. split; [done|]. by rewrite exec_lits_app in H.
Qed.

(** The capture group at the end of both patterns: it takes the longest
    run of admissible characters, and fails on an empty run. *)
Lemma exec_group_tail cs input pos marks :
  Re.exec [Re.Mark 0; Re.Repeat1Not cs; Re.Mark 1] input pos marks
  = match Re.run_length cs input with
    | O => None
    | S n => Some ((1, pos + S n) :: (0, pos) :: marks)%nat
    end.
Proof. simpl. by destruct (Re.run_length cs input). Qed.

(** A repeat whose continuation fails inside the run only succeeds at the
    full run. *)
Lemma try_counts_max {R : Type} n input pos (cont : list ascii → nat → option R) :
  (∀ k, (0 < k < n)%nat → cont (drop k input) (pos + k)%nat = None) →
  Re.try_counts n input pos cont
  = match n with O => None | S _ => cont (drop n input) (pos + n)%nat end.
Proof.
  intros Hfail. destruct n as [|n]; [done|]. simpl.
  destruct (cont _ _) as [r|] eqn:Hc; [done|].
  assert (∀ m, (m ≤ n)%nat → Re.try_counts m input pos cont = None) as Hall.
  { induction m as [|m IH]; intros Hm; simpl; [done|].
    rewrite Hfail by lia. apply IH. lia. }
  by apply Hall.
Qed.

Lemma group_of_marks p d b n :
  Re.exec p (list_ascii_of_string d) O [] = Some [(1, b + S n); (0, b)]%nat →
  Re.match_group p d
  = Some (string_of_list_ascii (take (S n) (drop b (list_ascii_of_string d)))).
Proof.
  intros H. unfold Re.match_group. rewrite H.
  unfold mbind, option_bind. simpl. do 3 f_equal. lia.
Qed.

Lemma free_of_Forall cs s :
  free_of cs s ↔ Forall (λ c, c ∉ cs) (list_ascii_of_string s).
Proof. unfold free_of. by rewrite Forall_forall. Qed.

Lemma stops_at_list cs rest :
  stops_at cs rest
  ↔ match list_ascii_of_string rest with [] => True | c :: _ => c ∈ cs end.
Proof. by destruct rest. Qed.

Lemma length_list_ascii_of_string s :
  length (list_ascii_of_string s) = String.length s.
Proof. induction s as [|c s IH]; simpl; [done|]. by rewrite IH. Qed.

Lemma run_length_le cs input : (Re.run_length cs input ≤ length input)%nat.
Proof.
  induction input as [|c input IH]; simpl; [done|].
  destruct (Re.excluded_by cs c); lia.
Qed.

Lemma nonempty_string_of_list (l : list ascii) :
  string_of_list_ascii l ≠ "" ↔ l ≠ [].
Proof. by destruct l. Qed.

(** The group of a pattern, read off a decomposition of the subject. *)
Lemma group_at (d : string) pre a r b n :
  list_ascii_of_string d = pre ++ a ++ r →
  length pre = b → length a = S n →
  string_of_list_ascii (take (S n) (drop b (list_ascii_of_string d)))
  = string_of_list_ascii a.
Proof.
  intros -> <- <-. by rewrite drop_app_length, take_app_length.
Qed.

(** A capture after a repeated class: the shape of what matches. *)
Lemma tail_match_iff cs r pos marks res :
  Re.exec [Re.Mark 0; Re.Repeat1Not cs; Re.Mark 1] r pos marks = Some res
  ↔ ∃ a r' n, r = a ++ r' ∧ length a = S n
              ∧ Forall (λ c, c ∉ cs) a
              ∧ match r' with [] => True | c :: _ => c ∈ cs end
              ∧ res = ((1, pos + S n) :: (0, pos) :: marks)%nat.
Proof.
  rewrite exec_group_tail. split.
  - destruct (Re.run_length cs r) as [|n] eqn:Hn; [done|]. intros [= <-].
    destruct (run_length_split cs r) as [Ha Hr]. rewrite Hn in Ha, Hr.
    exists (take (S n) r), (drop (S n) r), n.
    split_and!; [by rewrite take_drop| |done..].
    rewrite length_take. pose proof (run_length_le cs r). lia.
  - intros (a & r' & n & -> & Hlen & Ha & Hr & ->).
    by rewrite (run_length_app _ _ _ Ha Hr), Hlen.
Qed.

Lemma lits_group_match_iff P cs d ami :
  Re.match_group (Re.lits P ++ [Re.Mark 0; Re.Repeat1Not cs; Re.Mark 1]) d
  = Some ami
  ↔ ∃ rest, d = P +:+ ami +:+ rest ∧ ami ≠ ""
            ∧ free_of cs ami ∧ stops_at cs rest.
Proof.
  split.
  - intros Hm. destruct (match_group_exec _ _ _ Hm) as [marks He].
    destruct (exec_lits_inv _ _ _ _ _ _ He) as (r & Hd & Ht).
    apply tail_match_iff in Ht as (a & r' & n & -> & Hlen & Ha & Hr & ->).
    rewrite (group_of_marks _ _ _ _ He) in Hm.
    rewrite (group_at d (list_ascii_of_string P) a r' _ n Hd) in Hm;
      [|by rewrite length_list_ascii_of_string|done].
    injection Hm as <-. exists (string_of_list_ascii r').
    split_and!.
    + rewrite <- (string_of_list_ascii_of_string d), Hd.
      by rewrite !string_of_list_ascii_app, string_of_list_ascii_of_string.
    + apply nonempty_string_of_list. by destruct a.
    + apply free_of_Forall. by rewrite list_ascii_of_string_of_list_ascii.
    + apply stops_at_list. by rewrite list_ascii_of_string_of_list_ascii.
  - intros (rest & -> & Hne & Hfree & Hstop).
    apply free_of_Forall in Hfree. apply stops_at_list in Hstop.
    assert (∃ n, length (list_ascii_of_string ami) = S n) as [n Hlen].
    { destruct ami; [done|]. simpl. eauto. }
    assert (He : Re.exec (Re.lits P ++ [Re.Mark 0; Re.Repeat1Not cs; Re.Mark 1])
              (list_ascii_of_string (P +:+ ami +:+ rest)) O []
            = Some [(1, (0 + String.length P) + S n); (0, 0 + String.length P)]%nat).
    { rewrite !list_ascii_of_string_app, exec_lits_app.
      apply tail_match_iff.
      by exists (list_ascii_of_string ami), (list_ascii_of_string rest), n. }
    rewrite (group_of_marks _ _ _ _ He).
    rewrite (group_at _ (list_ascii_of_string P) (list_ascii_of_string ami)
               (list_ascii_of_string rest) _ n);
      [by rewrite string_of_list_ascii_of_string
      |by rewrite !list_ascii_of_string_app
      |by rewrite length_list_ascii_of_string
      |done].
Qed.

Lemma repeat_then_lits_fails c0 P2 q k r pos marks :
  (0 < k < Re.run_length [c0] r)%nat →
  Re.exec (Re.lits (String c0 P2) ++ q) (drop k r) (pos + k) marks = None.
Proof.
  intros [_ Hk]. destruct (run_length_inside _ _ _ Hk) as (c & r' & -> & Hc).
  simpl. rewrite bool_decide_eq_false_2; [done|]. set_solver.
Qed.

(** A repeated [[^c]] followed by the literal [c]: the repeat takes the
    whole run up to the first [c]. *)
Lemma repeat_lits_iff c0 P2 q r pos marks res :
  Re.exec (Re.Repeat1Not [c0] :: Re.lits (String c0 P2) ++ q) r pos marks
  = Some res
  ↔ ∃ a r' n, r = a ++ list_ascii_of_string (String c0 P2) ++ r'
              ∧ length a = S n ∧ Forall (λ c, c ∉ [c0]) a
              ∧ Re.exec q r' (pos + S n + String.length (String c0 P2)) marks
                = Some res.
Proof.
  change (Re.exec (Re.Repeat1Not [c0] :: Re.lits (String c0 P2) ++ q) r pos marks)
    with (Re.try_counts (Re.run_length [c0] r) r pos
            (λ rest pos', Re.exec (Re.lits (String c0 P2) ++ q) rest pos' marks)).
  rewrite try_counts_max
    by (intros k Hk; by apply repeat_then_lits_fails).
  split.
  - destruct (Re.run_length [c0] r) as [|n] eqn:Hn; [done|].
    intros (r' & Hr & He)%exec_lits_inv.
    destruct (run_length_split [c0] r) as [Ha _]. rewrite Hn in Ha.
    exists (take (S n) r), r', n. split_and!; [|..|done|done].
    + by rewrite <- Hr, take_drop.
    + rewrite length_take. pose proof (run_length_le [c0] r). lia.
  - intros (a & r' & n & -> & Hlen & Ha & He).
    rewrite (run_length_app [c0] a), Hlen; [|done|simpl; set_solver].
    rewrite <- Hlen, drop_app_length, exec_lits_app. by rewrite Hlen.
Qed.

Lemma lits_repeat_group_match_iff P1 c0 P2 cs d ami :
  Re.match_group
    (Re.lits P1 ++ Re.Repeat1Not [c0] :: Re.lits (String c0 P2)
       ++ [Re.Mark 0; Re.Repeat1Not cs; Re.Mark 1]) d
  = Some ami
  ↔ ∃ inst rest,
      d = P1 +:+ inst +:+ String c0 P2 +:+ ami +:+ rest
      ∧ inst ≠ "" ∧ free_of [c0] inst
      ∧ ami ≠ "" ∧ free_of cs ami ∧ stops_at cs rest.
Proof.
  split.
  - intros Hm. destruct (match_group_exec _ _ _ Hm) as [marks He].
    destruct (exec_lits_inv _ _ _ _ _ _ He) as (r & Hd & Hr).
    apply repeat_lits_iff in Hr as (i & r1 & n1 & -> & Hlen1 & Hi & Ht).
    apply tail_match_iff in Ht as (a & r' & n & -> & Hlen & Ha & Hr & ->).
    rewrite (group_of_marks _ _ _ _ He) in Hm.
    rewrite (group_at d
               (list_ascii_of_string P1 ++ i
                  ++ list_ascii_of_string (String c0 P2)) a r' _ n) in Hm;
      [|by rewrite Hd, <- !app_assoc
       |rewrite !length_app, !length_list_ascii_of_string; lia
       |done].
    injection Hm as <-.
    exists (string_of_list_ascii i), (string_of_list_ascii r').
    split_and!.
    + rewrite <- (string_of_list_ascii_of_string d), Hd.
      by rewrite !string_of_list_ascii_app, !string_of_list_ascii_of_string.
    + apply nonempty_string_of_list. by destruct i.
    + apply free_of_Forall. by rewrite list_ascii_of_string_of_list_ascii.
    + apply nonempty_string_of_list. by destruct a.
    + apply free_of_Forall. by rewrite list_ascii_of_string_of_list_ascii.
    + apply stops_at_list. by rewrite list_ascii_of_string_of_list_ascii.
  - intros (inst & rest & -> & Hine & Hifree & Hne & Hfree & Hstop).
    apply free_of_Forall in Hifree, Hfree. apply stops_at_list in Hstop.
    assert (∃ n, length (list_ascii_of_string ami) = S n) as [n Hlen].
    { destruct ami; [done|]. simpl. eauto. }
    assert (∃ n, length (list_ascii_of_string inst) = S n) as [n1 Hlen1].
    { destruct inst; [done|]. simpl. eauto. }
    set (b := (0 + String.length P1 + S n1
               + String.length (String c0 P2))%nat).
    assert (He : Re.exec
              (Re.lits P1 ++ Re.Repeat1Not [c0] :: Re.lits (String c0 P2)
                 ++ [Re.Mark 0; Re.Repeat1Not cs; Re.Mark 1])
              (list_ascii_of_string
                 (P1 +:+ inst +:+ String c0 P2 +:+ ami +:+ rest)) O []
            = Some [(1, b + S n); (0, b)]%nat).
    { rewrite !list_ascii_of_string_app, exec_lits_app.
      apply repeat_lits_iff.
      exists (list_ascii_of_string inst),
        (list_ascii_of_string ami ++ list_ascii_of_string rest), n1.
      split_and!; [done..|]. apply tail_match_iff.
      by exists (list_ascii_of_string ami), (list_ascii_of_string rest), n. }
    rewrite (group_of_marks _ _ _ _ He).
    rewrite (group_at _
               (list_ascii_of_string P1 ++ list_ascii_of_string inst
                  ++ list_ascii_of_string (String c0 P2))
               (list_ascii_of_string ami) (list_ascii_of_string rest) _ n);
      [by rewrite string_of_list_ascii_of_string
      |by rewrite !list_ascii_of_string_app, <- !app_assoc
      |unfold b; rewrite !length_app, Hlen1, !length_list_ascii_of_string; lia
      |done].
Qed.

(** X1. [RE_COPIED_AMI] matches a description exactly when it reads
    ["Copied for DestinationAmi "], then a non-empty image id free of
    whitespace and [+], then nothing or text beginning with whitespace or
    [+]; the group is that image id, i.e. the longest such run. *)
Theorem copied_match_iff d ami :
  Re.match_group RE_COPIED_AMI d = Some ami
  ↔ ∃ rest, d = "Copied for DestinationAmi " +:+ ami +:+ rest
            ∧ ami ≠ "" ∧ free_of ami_stop ami ∧ stops_at ami_stop rest.
Proof. apply lits_group_match_iff. Qed.

(** X2. [RE_CREATED_AMI] matches a description exactly when it reads
    ["Created by CreateImage("], a non-empty text without [)], then
    [") for "], then a non-empty image id free of whitespace and [+], then
    nothing or text beginning with whitespace or [+]; the group is that
    image id. *)
Theorem created_match_iff d ami :
  Re.match_group RE_CREATED_AMI d = Some ami
  ↔ ∃ inst rest,
      d = "Created by CreateImage(" +:+ inst +:+ ") for " +:+ ami +:+ rest
      ∧ inst ≠ "" ∧ free_of [")"%char] inst
      ∧ ami ≠ "" ∧ free_of ami_stop ami ∧ stops_at ami_stop rest.
Proof. apply (lits_repeat_group_match_iff _ ")" " for "). Qed.

(** ** The dicts built by the scanning loop *)

Lemma inferred_ami_shape d ami :
  inferred_ami d = Some ami → ami ≠ "" ∧ free_of ami_stop ami.
Proof.
  unfold inferred_ami.
  destruct (Re.match_group RE_COPIED_AMI d) as [a|] eqn:Hc.
  - intros [= <-].
    apply (lits_group_match_iff "Copied for DestinationAmi ") in Hc
      as (rest & _ & ? & ? & _). done.
  - intros Hm.
    apply (lits_repeat_group_match_iff "Created by CreateImage(" ")" " for ")
      in Hm as (inst & rest & _ & _ & _ & ? & ? & _). done.
Qed.

(** X3. Every image id recorded in [snapshot_to_ami] of a region result is
    a non-empty string without whitespace and without [+]. *)
Theorem recorded_image_ids_well_formed c rgn owner_id rep :
  outcome (orphaned_ami_snapshots c rgn owner_id) = inr (Scanned rep) →
  ∀ sid ami, snapshot_to_ami rep !! sid = Some ami →
             ami ≠ "" ∧ free_of ami_stop ami.
Proof.
  intros (snaps & images & _ & _ & _ & Hb)%scanner_inv sid ami.
  rewrite build_report_eq in Hb. injection Hb as <-. simpl.
  intros (s & _ & _ & Hs)%scan_loop_ami_Some. by eapply inferred_ami_shape.
Qed.

Lemma scan_loop_by_id_last snaps sid :
  (scan_loop snaps).2 !! sid = last (filter (λ s, SnapshotId s = sid) snaps).
Proof.
  induction snaps as [|x snaps IH] using rev_ind.
  - rewrite scan_loop_nil. simpl. by rewrite lookup_empty.
  - rewrite scan_loop_snoc, scan_step_by_id, filter_app.
    case_decide as Hx.
    + rewrite (filter_cons_True _ x) by done.
      by rewrite filter_nil, last_snoc.
    + rewrite (filter_cons_False _ x) by done.
      by rewrite filter_nil, app_nil_r.
Qed.

Lemma scan_loop_ami_last snaps sid :
  (scan_loop snaps).1 !! sid = last (omap (ami_for sid) snaps).
Proof.
  induction snaps as [|x snaps IH] using rev_ind.
  - rewrite scan_loop_nil. simpl. by rewrite lookup_empty.
  - rewrite scan_loop_snoc, scan_step_ami, omap_app. simpl.
    unfold ami_for at 2. case_decide as Hx.
    + rewrite decide_True by done.
      destruct (inferred_ami (Description x)) as [a|]; simpl.
      * by rewrite last_snoc.
      * by rewrite app_nil_r.
    + rewrite decide_False by done. simpl. by rewrite app_nil_r.
Qed.

(** X4. The two dicts of a region result keep, for each id, the last
    relevant entry of the listing: [snapshots[sid]] is the last listed
    snapshot with that id, and [snapshot_to_ami[sid]] is the image id
    inferred from the last listed snapshot with that id whose description
    matches a pattern (an earlier inference survives a later snapshot whose
    description matches neither). Both are absent when there is no such
    snapshot. *)
Theorem dicts_keep_last_entry c rgn owner_id rep snaps :
  outcome (orphaned_ami_snapshots c rgn owner_id) = inr (Scanned rep) →
  ec2_describe_snapshots c rgn owner_id = inr snaps →
  ∀ sid,
    snapshots rep !! sid = last (filter (λ s, SnapshotId s = sid) snaps)
    ∧ snapshot_to_ami rep !! sid = last (omap (ami_for sid) snaps).
Proof.
  intros (snaps' & images & Hs' & _ & _ & Hb)%scanner_inv Hs sid.
  rewrite Hs in Hs'. injection Hs' as <-.
  rewrite build_report_eq in Hb. injection Hb as <-. simpl.
  split; [apply scan_loop_by_id_last | apply scan_loop_ami_last].
Qed.

Lemma scan_loop_by_id_NoDup snaps s :
  NoDup (SnapshotId <$> snaps) → s ∈ snaps →
  (scan_loop snaps).2 !! SnapshotId s = Some s.
Proof.
  induction snaps as [|x snaps IH] using rev_ind; [by intros _ ?%elem_of_nil|].
  rewrite fmap_app, NoDup_app. simpl. intros (Hnd & Hfresh & _).
  rewrite elem_of_app, list_elem_of_singleton, scan_loop_snoc, scan_step_by_id.
  intros [Hs | ->].
  - rewrite decide_False; [by apply IH|].
    intros Heq. apply (Hfresh (SnapshotId s)).
    + by apply list_elem_of_fmap_2.
    + rewrite Heq. set_solver.
  - by rewrite decide_True.
Qed.

(** X5. When the snapshot ids of the listing are distinct, every listed
    snapshot is found again under its own id: [snapshots] returns the
    snapshot itself and [snapshot_to_ami] the image id inferred from its
    own description (no entry when the description matches neither
    pattern). *)
Theorem listed_snapshot_lookup c rgn owner_id rep snaps s :
  outcome (orphaned_ami_snapshots c rgn owner_id) = inr (Scanned rep) →
  ec2_describe_snapshots c rgn owner_id = inr snaps →
  NoDup (SnapshotId <$> snaps) → s ∈ snaps →
  snapshots rep !! SnapshotId s = Some s
  ∧ snapshot_to_ami rep !! SnapshotId s = inferred_ami (Description s).
Proof.
  intros (snaps' & images & Hs' & _ & _ & Hb)%scanner_inv Hs Hnd Hin.
  rewrite Hs in Hs'. injection Hs' as <-.
  rewrite build_report_eq in Hb. injection Hb as <-. simpl.
  split; [by apply scan_loop_by_id_NoDup | by apply scan_loop_ami_NoDup].
Qed.

Lemma scan_loop_by_id_dom snaps :
  dom (scan_loop snaps).2 = list_to_set (SnapshotId <$> snaps).
Proof.
  apply set_eq. intros sid.
  by rewrite elem_of_dom, scan_loop_by_id_is_Some, elem_of_list_to_set.
Qed.

Lemma size_list_to_set_le (l : list string) :
  (size (list_to_set l : gset string) ≤ length l)%nat.
Proof.
  induction l as [|x l IH].
  - by rewrite list_to_set_nil, size_empty.
  - rewrite list_to_set_cons, size_union_alt, size_singleton. simpl.
    assert (size (list_to_set l ∖ {[x]} : gset string)
            ≤ size (list_to_set l : gset string))%nat
      by (apply subseteq_size; set_solver).
    lia.
Qed.

(** X6. The keys of [snapshots] are exactly the snapshot ids of the
    listing. Hence the number printed on the ['Snapshots'] line,
    [len(res['snapshots'])], never exceeds [snapshot_count], and equals it
    when the listed ids are distinct. *)
Theorem snapshots_keys_are_listed_ids c rgn owner_id rep snaps :
  outcome (orphaned_ami_snapshots c rgn owner_id) = inr (Scanned rep) →
  ec2_describe_snapshots c rgn owner_id = inr snaps →
  dom (snapshots rep) = list_to_set (SnapshotId <$> snaps)
  ∧ Z.of_nat (size (snapshots rep)) ≤ snapshot_count rep
  ∧ (NoDup (SnapshotId <$> snaps) →
     Z.of_nat (size (snapshots rep)) = snapshot_count rep).
Proof.
  intros (snaps' & images & Hs' & _ & _ & Hb)%scanner_inv Hs.
  rewrite Hs in Hs'. injection Hs' as <-.
  rewrite build_report_eq in Hb. injection Hb as <-. simpl.
  pose proof (scan_loop_by_id_dom snaps) as Hdom.
  assert (size (scan_loop snaps).2
          = size (list_to_set (SnapshotId <$> snaps) : gset string)) as Hsz
    by (by rewrite <- Hdom, size_dom).
  split_and!; [done|..].
  - rewrite Hsz. pose proof (size_list_to_set_le (SnapshotId <$> snaps)) as Hle.
    rewrite length_fmap in Hle. lia.
  - intros Hnd. rewrite Hsz, size_list_to_set, length_fmap by done. done.
Qed.

(** ** Sizes, read off the listing *)

Lemma sum_over_selected snaps (X : gset string) (P : Snapshot → Prop)
    `{!∀ s, Decision (P s)} :
  NoDup (SnapshotId <$> snaps) →
  (∀ s, s ∈ snaps → SnapshotId s ∈ X ↔ P s) →
  (∀ sid, sid ∈ X → sid ∈ SnapshotId <$> snaps) →
  Zsum (volume_of (scan_loop snaps).2 <$> elements X)
  = Zsum (VolumeSize <$> filter P snaps).
Proof.
  intros Hnd HP Hids.
  assert (elements X ≡ₚ SnapshotId <$> filter P snaps) as ->.
  { apply NoDup_Permutation; [apply NoDup_elements| |].
    - apply (sublist_NoDup _ (SnapshotId <$> snaps)); [done|].
      apply fmap_sublist, sublist_filter.
    - intros sid. rewrite elem_of_elements, list_elem_of_fmap. split.
      + intros Hin.
        pose proof (Hids sid Hin) as (s & -> & Hs)%list_elem_of_fmap.
        exists s. split; [done|]. apply list_elem_of_filter.
        split; [by apply HP|done].
      + intros (s & -> & [Hp Hs]%list_elem_of_filter). by apply HP. }
  rewrite <- list_fmap_compose. f_equal.
  apply Forall_fmap_ext_1, Forall_forall.
  intros s [_ Hs]%list_elem_of_filter. simpl. unfold volume_of.
  by rewrite (scan_loop_by_id_NoDup _ _ Hnd Hs).
Qed.

(** X7. When the snapshot ids of the listing are distinct, the three size
    fields of a region result are sums over the listing itself:
    [snapshots_size] over all listed snapshots, [snapshots_ami_size] over
    those whose description yields an image id, and [orphaned_size] over
    those whose description yields an image id that is not registered. *)
Theorem sizes_over_listing c rgn owner_id rep snaps images :
  outcome (orphaned_ami_snapshots c rgn owner_id) = inr (Scanned rep) →
  ec2_describe_snapshots c rgn owner_id = inr snaps →
  ec2_describe_images c rgn = inr images →
  NoDup (SnapshotId <$> snaps) →
  snapshots_size rep = Zsum (VolumeSize <$> snaps)
  ∧ snapshots_ami_size rep = Zsum (VolumeSize <$> filter names_image snaps)
  ∧ orphaned_size rep
    = Zsum (VolumeSize <$> filter (names_unknown_image images) snaps).
Proof.
  intros (snaps' & images' & Hs' & _ & Hi' & Hb)%scanner_inv Hs Hi Hnd.
  rewrite Hs in Hs'. injection Hs' as <-.
  rewrite Hi in Hi'. injection Hi' as <-.
  rewrite build_report_eq in Hb. injection Hb as <-. simpl.
  assert (Hlisted : ∀ sid, sid ∈ dom (scan_loop snaps).1 →
                           sid ∈ SnapshotId <$> snaps).
  { intros sid Hin. apply scan_loop_by_id_is_Some, elem_of_dom.
    by apply scan_loop_dom. }
  split_and!.
  - apply total_volume_size_Zsum.
  - apply sum_over_selected; [done| |done].
    intros s Hin. unfold names_image.
    by rewrite elem_of_dom, (scan_loop_ami_NoDup _ _ Hnd Hin).
  - apply sum_over_selected; [done| |].
    + intros s Hin. unfold names_unknown_image.
      rewrite elem_of_orphans, (scan_loop_ami_NoDup _ _ Hnd Hin).
      setoid_rewrite elem_of_collect_amis.
      destruct (inferred_ami (Description s)) as [a|]; split.
      * by intros (? & [= <-] & ?).
      * intros ?. by exists a.
      * by intros (? & ? & ?).
      * done.
    + intros sid Hin. apply Hlisted. by eapply orphans_subseteq.
Qed.

(** ** How the result depends on the image listing *)

Lemma scanner_report c rgn owner_id rep :
  outcome (orphaned_ami_snapshots c rgn owner_id) = inr (Scanned rep) →
  ∃ snaps images,
    ec2_describe_snapshots c rgn owner_id = inr snaps
    ∧ ec2_describe_images c rgn = inr images
    ∧ rep = report_for rgn snaps images.
Proof.
  intros (snaps & images & Hs & _ & Hi & Hb)%scanner_inv.
  rewrite build_report_eq in Hb. injection Hb as <-. by exists snaps, images.
Qed.

Lemma volume_of_nonneg snaps sid :
  (∀ s, s ∈ snaps → 0 ≤ VolumeSize s) →
  0 ≤ volume_of (scan_loop snaps).2 sid.
Proof.
  intros Hpos. unfold volume_of.
  destruct (_ !! sid) as [s|] eqn:Hl; simpl; [|done].
  apply scan_loop_by_id_Some in Hl as [? _]. by apply Hpos.
Qed.

Lemma Zsum_elements_mono snaps (X Y : gset string) :
  (∀ s, s ∈ snaps → 0 ≤ VolumeSize s) → X ⊆ Y →
  Zsum (volume_of (scan_loop snaps).2 <$> elements X)
  ≤ Zsum (volume_of (scan_loop snaps).2 <$> elements Y).
Proof.
  intros Hpos Hsub. apply Zsum_submseteq.
  - apply NoDup_submseteq; [apply NoDup_elements|].
    intros sid. rewrite !elem_of_elements. apply Hsub.
  - intros sid _. by apply volume_of_nonneg.
Qed.

(** X8. Registering more images never orphans more snapshots. For two
    scans of the same snapshot listing, the second against a superset of
    the first's image ids: the second orphaned set is included in the
    first, the dicts and the other sizes are identical (descriptions are
    parsed without looking at the images), and with non-negative volume
    sizes [orphaned_size] does not grow. *)
Theorem more_images_fewer_orphans c1 c2 rgn owner_id rep1 rep2 images1 images2 :
  outcome (orphaned_ami_snapshots c1 rgn owner_id) = inr (Scanned rep1) →
  outcome (orphaned_ami_snapshots c2 rgn owner_id) = inr (Scanned rep2) →
  ec2_describe_snapshots c2 rgn owner_id = ec2_describe_snapshots c1 rgn owner_id →
  ec2_describe_images c1 rgn = inr images1 →
  ec2_describe_images c2 rgn = inr images2 →
  (∀ ami, ami ∈ ImageId <$> images1 → ami ∈ ImageId <$> images2) →
  orphaned_snapshots rep2 ⊆ orphaned_snapshots rep1
  ∧ snapshot_to_ami rep2 = snapshot_to_ami rep1
  ∧ snapshots rep2 = snapshots rep1
  ∧ snapshots_size rep2 = snapshots_size rep1
  ∧ snapshots_ami_size rep2 = snapshots_ami_size rep1
  ∧ (∀ snaps, ec2_describe_snapshots c1 rgn owner_id = inr snaps →
       (∀ s, s ∈ snaps → 0 ≤ VolumeSize s) →
       orphaned_size rep2 ≤ orphaned_size rep1).
Proof.
  intros (snaps & im1 & Hs1 & Hi1 & ->)%scanner_report
         (snaps2 & im2 & Hs2 & Hi2 & ->)%scanner_report Hsame H1 H2 Hsub.
  rewrite Hsame, Hs1 in Hs2. injection Hs2 as <-.
  rewrite H1 in Hi1. injection Hi1 as <-.
  rewrite H2 in Hi2. injection Hi2 as <-. simpl.
  assert (Horph :
    orphans_of (scan_loop snaps).1
      (unknown_amis_of (scan_loop snaps).1 (collect_amis images2))
    ⊆ orphans_of (scan_loop snaps).1
        (unknown_amis_of (scan_loop snaps).1 (collect_amis images1))).
  { intros sid. rewrite !elem_of_orphans.
    intros (ami & Hl & Hn). exists ami. split; [done|].
    rewrite elem_of_collect_amis in Hn |- *. intros ?. by apply Hn, Hsub. }
  split_and!; [done..|].
  intros snaps' Hs' Hpos. rewrite Hs1 in Hs'. injection Hs' as <-.
  by apply Zsum_elements_mono.
Qed.

(** X9. With an empty image listing every snapshot that has an inferred
    image id is orphaned: the orphaned set is the key set of
    [snapshot_to_ami] and [orphaned_size] equals [snapshots_ami_size]. *)
Theorem no_images_all_orphaned c rgn owner_id rep :
  outcome (orphaned_ami_snapshots c rgn owner_id) = inr (Scanned rep) →
  ec2_describe_images c rgn = inr [] →
  orphaned_snapshots rep = dom (snapshot_to_ami rep)
  ∧ orphaned_size rep = snapshots_ami_size rep.
Proof.
  intros (snaps & images & _ & Hi & ->)%scanner_report Hnone.
  rewrite Hnone in Hi. injection Hi as <-. simpl.
  assert (orphans_of (scan_loop snaps).1
            (unknown_amis_of (scan_loop snaps).1 (collect_amis []))
          = dom (scan_loop snaps).1) as ->; [|done].
  apply set_eq. intros sid. rewrite elem_of_orphans, elem_of_dom. split.
  - intros (ami & ? & _). by exists ami.
  - intros [ami ?]. exists ami. split; [done|].
    rewrite elem_of_collect_amis. by intros ?%elem_of_nil.
Qed.

(** X10. When every image id recorded in [snapshot_to_ami] is registered,
    the region has no orphans: the orphaned set is empty, [orphaned_size]
    is zero, and the delete phase passes over the region without printing
    anything or making any request. *)
Theorem all_registered_nothing_to_delete c rgn owner_id rep images :
  outcome (orphaned_ami_snapshots c rgn owner_id) = inr (Scanned rep) →
  ec2_describe_images c rgn = inr images →
  (∀ sid ami, snapshot_to_ami rep !! sid = Some ami →
              ami ∈ ImageId <$> images) →
  orphaned_snapshots rep = ∅
  ∧ orphaned_size rep = 0
  ∧ ∀ c', delete_orphans c' rep = ([], inr tt).
Proof.
  intros (snaps & images' & _ & Hi & ->)%scanner_report Himg.
  rewrite Himg in Hi. injection Hi as <-. simpl. intros Hreg.
  assert (orphans_of (scan_loop snaps).1
            (unknown_amis_of (scan_loop snaps).1 (collect_amis images))
          = ∅) as Hempty.
  { apply set_eq. intros sid. rewrite elem_of_orphans. split; [|set_solver].
    intros (ami & Hl & Hn). exfalso. apply Hn, elem_of_collect_amis.
    by eapply Hreg. }
  split_and!; [done| |].
  - by rewrite Hempty, elements_empty.
  - intros c'. unfold delete_orphans. simpl.
    by rewrite bool_decide_eq_true_2.
Qed.

(** ** Scanning again after the orphans are gone *)

Lemma omap_ami_for_filter (X : gset string) (snaps : list Snapshot) sid :
  sid ∉ X →
  omap (ami_for sid) (filter (λ s, SnapshotId s ∉ X) snaps)
  = omap (ami_for sid) snaps.
Proof.
  intros Hsid. induction snaps as [|x snaps IH]; [done|].
  rewrite filter_cons. case_decide as Hx.
  - by rewrite !omap_cons_option_list, IH.
  - assert (ami_for sid x = None) as Hnone.
    { unfold ami_for. rewrite decide_False; [done|]. intros <-.
      contradiction. }
    by rewrite IH, (omap_cons_option_list _ x), Hnone.
Qed.

Lemma filter_id_filter (X : gset string) (snaps : list Snapshot) sid :
  sid ∉ X →
  filter (λ s, SnapshotId s = sid) (filter (λ s, SnapshotId s ∉ X) snaps)
  = filter (λ s, SnapshotId s = sid) snaps.
Proof.
  intros Hsid. induction snaps as [|x snaps IH]; [done|].
  rewrite (filter_cons (λ s, SnapshotId s ∉ X)). case_decide as Hx.
  - rewrite !(filter_cons (λ s, SnapshotId s = sid)), IH. done.
  - rewrite IH, (filter_cons_False (λ s, SnapshotId s = sid) x); [done|].
    intros <-. contradiction.
Qed.

Lemma scan_loop_pruned_ami (X : gset string) (snaps : list Snapshot) sid :
  (scan_loop (filter (λ s, SnapshotId s ∉ X) snaps)).1 !! sid
  = if decide (sid ∈ X) then None else (scan_loop snaps).1 !! sid.
Proof.
  case_decide as Hsid.
  - apply scan_loop_ami_None. intros s [Hs _]%list_elem_of_filter <-. done.
  - by rewrite !scan_loop_ami_last, omap_ami_for_filter.
Qed.

Lemma scan_loop_pruned_by_id (X : gset string) (snaps : list Snapshot) sid :
  (scan_loop (filter (λ s, SnapshotId s ∉ X) snaps)).2 !! sid
  = if decide (sid ∈ X) then None else (scan_loop snaps).2 !! sid.
Proof.
  case_decide as Hsid.
  - destruct (_ !! sid) as [s|] eqn:Hl; [|done].
    apply scan_loop_by_id_Some in Hl as [[Hs _]%list_elem_of_filter <-]. done.
  - by rewrite !scan_loop_by_id_last, filter_id_filter.
Qed.

(** X11. Pruning converges. If the snapshots with an orphaned id are
    removed from a region's listing and the region is scanned again against
    the same images, the new result (when the region still has snapshots)
    has no orphans, and its dicts are the old ones restricted to the ids
    that were not orphaned. *)
Theorem rescan_after_prune c1 c2 rgn owner_id rep1 rep2 snaps :
  outcome (orphaned_ami_snapshots c1 rgn owner_id) = inr (Scanned rep1) →
  ec2_describe_snapshots c1 rgn owner_id = inr snaps →
  ec2_describe_snapshots c2 rgn owner_id
    = inr (filter (λ s, SnapshotId s ∉ orphaned_snapshots rep1) snaps) →
  ec2_describe_images c2 rgn = ec2_describe_images c1 rgn →
  outcome (orphaned_ami_snapshots c2 rgn owner_id) = inr (Scanned rep2) →
  orphaned_snapshots rep2 = ∅
  ∧ orphaned_size rep2 = 0
  ∧ snapshot_to_ami rep2
    = filter (λ kv, kv.1 ∉ orphaned_snapshots rep1) (snapshot_to_ami rep1)
  ∧ snapshots rep2
    = filter (λ kv, kv.1 ∉ orphaned_snapshots rep1) (snapshots rep1).
Proof.
  intros (snaps1 & images & Hs1 & Hi1 & Hrep1)%scanner_report Hs Hs2 Hi
         (snaps2 & images2 & Hs2' & Hi2 & ->)%scanner_report.
  rewrite Hs in Hs1. injection Hs1 as <-.
  rewrite Hs2 in Hs2'. injection Hs2' as <-.
  rewrite Hi, Hi1 in Hi2. injection Hi2 as <-.
  set (X := orphaned_snapshots rep1). simpl.
  assert (HX : ∀ sid, sid ∈ X ↔
    ∃ ami, (scan_loop snaps).1 !! sid = Some ami
           ∧ ami ∉ collect_amis images).
  { intros sid. unfold X. rewrite Hrep1. simpl. apply elem_of_orphans. }
  assert (Hempty :
    orphans_of (scan_loop (filter (λ s, SnapshotId s ∉ X) snaps)).1
      (unknown_amis_of (scan_loop (filter (λ s, SnapshotId s ∉ X) snaps)).1
         (collect_amis images)) = ∅).
  { apply set_eq. intros sid. rewrite elem_of_orphans. split; [|set_solver].
    intros (ami & Hl & Hn). rewrite scan_loop_pruned_ami in Hl.
    case_decide as Hsid; [done|]. exfalso. apply Hsid, HX. eauto. }
  split_and!; [done| | |].
  - by rewrite Hempty, elements_empty.
  - apply map_eq. intros sid. rewrite scan_loop_pruned_ami.
    rewrite Hrep1. simpl. fold X.
    case_decide as Hsid.
    + symmetry. apply map_lookup_filter_None. right. intros ? _. simpl.
      by intros ?.
    + destruct ((scan_loop snaps).1 !! sid) as [a|] eqn:Hl; symmetry.
      * by apply map_lookup_filter_Some.
      * apply map_lookup_filter_None. by left.
  - apply map_eq. intros sid. rewrite scan_loop_pruned_by_id.
    rewrite Hrep1. simpl. fold X.
    case_decide as Hsid.
    + symmetry. apply map_lookup_filter_None. right. intros ? _. simpl.
      by intros ?.
    + destruct ((scan_loop snaps).2 !! sid) as [a|] eqn:Hl; symmetry.
      * by apply map_lookup_filter_Some.
      * apply map_lookup_filter_None. by left.
Qed.

(** ** Errors and requests of the scanner *)

(** X12. The scanner raises only what its two requests raise: it raises
    [e] exactly when the snapshot listing raises [e], or the listing is
    non-empty and the image listing raises [e]. It makes the snapshot-list
    request once, the image-list request once and only after a non-empty
    snapshot listing, and nothing else; a returned result carries the
    requested region name. *)
Theorem scanner_raises_only_api_errors c rgn owner_id :
  (∀ e, outcome (orphaned_ami_snapshots c rgn owner_id) = inl e
        ↔ ec2_describe_snapshots c rgn owner_id = inl e
          ∨ ((∃ s snaps, ec2_describe_snapshots c rgn owner_id
                         = inr (s :: snaps))
             ∧ ec2_describe_images c rgn = inl e))
  ∧ trace (orphaned_ami_snapshots c rgn owner_id)
    = Call (DescribeSnapshots rgn owner_id)
      :: match ec2_describe_snapshots c rgn owner_id with
         | inr (_ :: _) => [Call (DescribeImages rgn)]
         | _ => []
         end
  ∧ (∀ res, outcome (orphaned_ami_snapshots c rgn owner_id) = inr res →
            result_region res = rgn).
Proof.
  unfold orphaned_ami_snapshots, call, lift.
  destruct (ec2_describe_snapshots c rgn owner_id) as [e0|[|s snaps]];
    monad_simpl.
  - split_and!; [|done..]. intros e. split; [intros [= ->]; by left|].
    intros [[= ->]|[(? & ? & ?) _]]; done.
  - split_and!; [|done|by intros ? [= <-]]. intros e. split; [done|].
    intros [?|[(? & ? & ?) _]]; done.
  - destruct (ec2_describe_images c rgn) as [e0|images]; monad_simpl;
      rewrite ?build_report_eq; monad_simpl.
    + split_and!; [|done..]. intros e. split.
      * intros [= ->]. right. eauto.
      * intros [?|[_ [= ->]]]; done.
    + split_and!; [|done|by intros ? [= <-]]. intros e. split; [done|].
      intros [?|[_ ?]]; done.
Qed.

(** ** The verbose listing and the [--print-orphans] flag *)

Lemma scanned_well_keyed c owner_id f rep :
  scanned_by c owner_id f → f = inr (Scanned rep) → well_keyed rep.
Proof.
  intros [rgn ->] Hrun.
  apply scanner_report in Hrun as (snaps & images & _ & _ & ->).
  intros sid Hin. simpl in *. apply elem_of_dom.
  apply scan_loop_dom. by eapply orphans_subseteq.
Qed.

Lemma verbose_listing rep ids :
  (∀ sid, sid ∈ ids → is_Some (snapshots rep !! sid)) →
  for_each ids (print_orphan rep)
  = (omap (λ sid, (λ s, Print (LOrphan sid (date (StartTime s))
                                  (Description s)))
                  <$> snapshots rep !! sid) ids,
     inr tt).
Proof.
  induction ids as [|sid ids IH]; intros Hin; [done|].
  rewrite for_each_cons, IH by (intros ? ?; apply Hin; set_solver).
  destruct (Hin sid) as [s Hs]; [set_solver|].
  unfold print_orphan, lift, getitem, print. rewrite Hs.
  unfold mbind, M_bind. simpl. by rewrite Hs.
Qed.

(** X13. For a region result of the scanner, the verbose listing prints
    one line per orphaned snapshot id and nothing else, in [sorted] order
    of the ids; the line of an id shows the date and the description of the
    snapshot stored under it, whose own id is that id. No lookup fails. *)
Theorem verbose_listing_lines c rgn owner_id rep :
  outcome (orphaned_ami_snapshots c rgn owner_id) = inr (Scanned rep) →
  ∃ listed : list Snapshot,
    for_each (sorted (orphaned_snapshots rep)) (print_orphan rep)
    = (Print ∘ orphan_line <$> listed, inr tt)
    ∧ SnapshotId <$> listed = sorted (orphaned_snapshots rep)
    ∧ ∀ s, s ∈ listed → snapshots rep !! SnapshotId s = Some s.
Proof.
  intros Hrun.
  assert (Hwk : well_keyed rep).
  { eapply scanned_well_keyed; [by exists rgn|done]. }
  assert (Hid : ∀ sid s, snapshots rep !! sid = Some s → SnapshotId s = sid).
  { apply scanner_report in Hrun as (snaps & images & _ & _ & ->).
    simpl. intros sid s Hl. by apply scan_loop_by_id_Some in Hl as [_ ?]. }
  rewrite verbose_listing by (intros sid ?%elem_of_sorted; by apply Hwk).
  assert (Hall : ∀ sid, sid ∈ sorted (orphaned_snapshots rep) →
                        is_Some (snapshots rep !! sid))
    by (intros sid ?%elem_of_sorted; by apply Hwk).
  induction (sorted (orphaned_snapshots rep)) as [|sid ids IH].
  - exists []. split_and!; [done..|]. by intros s ?%elem_of_nil.
  - destruct IH as (listed & Htr & Hids & Hlk).
    { intros ? ?. apply Hall. set_solver. }
    destruct (Hall sid) as [s Hs]; [set_solver|].
    exists (s :: listed). pose proof (Hid _ _ Hs) as Hsid. subst sid.
    injection Htr as Htr. split_and!.
    + by rewrite (omap_cons_option_list _ (SnapshotId s)), Hs, Htr, fmap_cons.
    + by rewrite fmap_cons, Hids.
    + intros s' [->|?]%elem_of_cons; [done|by apply Hlk].
Qed.

(** ** Classes of events in the traces *)

Lemma Forall_trace_bind {A B : Type} (P : event → Prop) (m : M A) (f : A → M B) :
  Forall P (trace m) →
  (∀ a, outcome m = inr a → Forall P (trace (f a))) →
  Forall P (trace (m ≫= f)).
Proof.
  intros Hm Hf. rewrite trace_bind. apply Forall_app. split; [done|].
  destruct (outcome m) as [e|a]; [constructor|by apply Hf].
Qed.

Lemma Forall_trace_for_each {A : Type} (P : event → Prop) (l : list A)
    (body : A → M unit) :
  (∀ a, a ∈ l → Forall P (trace (body a))) →
  Forall P (trace (for_each l body)).
Proof.
  induction l as [|a l IH]; intros Hb; [constructor|].
  rewrite for_each_cons. apply Forall_trace_bind.
  - apply Hb. set_solver.
  - intros _ _. apply IH. intros ? ?. apply Hb. set_solver.
Qed.

Lemma Forall_trace_foldM {A S : Type} (P : event → Prop)
    (step : S → A → M S) (l : list A) (s : S) :
  (∀ s a, a ∈ l → Forall P (trace (step s a))) →
  Forall P (trace (foldM step s l)).
Proof.
  revert s. induction l as [|a l IH]; intros s Hb; [constructor|].
  rewrite foldM_cons. apply Forall_trace_bind.
  - apply Hb. set_solver.
  - intros s' _. apply IH. intros ? ? ?. apply Hb. set_solver.
Qed.

Lemma scanner_trace c rgn owner_id :
  trace (orphaned_ami_snapshots c rgn owner_id)
  = Call (DescribeSnapshots rgn owner_id)
    :: match ec2_describe_snapshots c rgn owner_id with
       | inr (_ :: _) => [Call (DescribeImages rgn)]
       | _ => []
       end.
Proof.
  unfold orphaned_ami_snapshots, call, lift.
  destruct (ec2_describe_snapshots c rgn owner_id) as [e0|[|s snaps]];
    monad_simpl; [done..|].
  destruct (ec2_describe_images c rgn) as [e0|images]; monad_simpl; [done|].
  by rewrite build_report_eq.
Qed.

Lemma scanner_scan_events c rgn owner_id :
  Forall is_scan_event (trace (orphaned_ami_snapshots c rgn owner_id)).
Proof.
  rewrite scanner_trace.
  destruct (ec2_describe_snapshots c rgn owner_id) as [e0|[|s snaps]];
    by repeat constructor.
Qed.

Lemma submit_all_scan_events c regions owner_id :
  Forall is_scan_event (trace (submit_all c regions owner_id)).
Proof.
  induction regions as [|rgn regions IH]; [constructor|].
  rewrite submit_all_cons. apply Forall_trace_bind.
  - apply scanner_scan_events.
  - intros f _. apply Forall_trace_bind; [done|]. intros fs _. constructor.
Qed.

Lemma print_orphan_scan_events rep sid :
  Forall is_scan_event (trace (print_orphan rep sid)).
Proof.
  unfold print_orphan, lift, getitem.
  destruct (snapshots rep !! sid); monad_simpl; by repeat constructor.
Qed.

Lemma aggregate_step_scan_events po acc f :
  Forall is_scan_event (trace (aggregate_step po acc f)).
Proof.
  unfold aggregate_step, lift. destruct f as [e|[rgn|rep]]; monad_simpl.
  - constructor.
  - by repeat constructor.
  - repeat (constructor; [done|]). apply Forall_app. split; [|].
    + destruct po; [|constructor].
      apply Forall_trace_for_each. intros ? _. apply print_orphan_scan_events.
    + destruct (outcome (if po then _ else _)); constructor.
Qed.

Lemma scan_all_scan_events c regions owner_id po :
  Forall is_scan_event (trace (scan_all c regions owner_id po)).
Proof.
  unfold scan_all. apply Forall_trace_bind.
  - apply submit_all_scan_events.
  - intros fs _. apply Forall_trace_foldM. intros ? ? _.
    apply aggregate_step_scan_events.
Qed.

Lemma delete_phase_delete_events c reports :
  Forall is_delete_event (trace (for_each reports (delete_orphans c))).
Proof.
  apply Forall_trace_for_each. intros rep _. unfold delete_orphans.
  case_bool_decide; [constructor|]. apply Forall_trace_bind.
  - by repeat constructor.
  - intros _ _. apply Forall_trace_for_each. intros sid _.
    unfold delete_snapshot, call, print. monad_simpl. by repeat constructor.
Qed.

Lemma final_report_total_events t :
  Forall is_total_event (trace (final_report t)).
Proof.
  unfold final_report, lift, print.
  destruct (total_cost_of (total_orphaned_size t)) as [e|x]; monad_simpl;
    [constructor|].
  destruct (Float.to_int x) as [e|cost]; by repeat constructor.
Qed.

(** ** The shape of a run *)

Lemma main_trace c delete po :
  trace (main c delete po)
  = Call GetCallerIdentity
    :: match sts_get_caller_identity c with
       | inl _ => []
       | inr owner_id =>
           trace (scan_all c (session_get_available_regions c) owner_id po)
           ++ match outcome (scan_all c (session_get_available_regions c)
                               owner_id po) with
              | inl _ => []
              | inr t =>
                  trace (if delete
                         then for_each (results t) (delete_orphans c)
                         else mret tt)
                  ++ match outcome (if delete
                                    then for_each (results t) (delete_orphans c)
                                    else mret tt) with
                     | inl _ => []
                     | inr _ => trace (final_report t)
                     end
              end
       end.
Proof.
  unfold main, call. rewrite trace_bind. simpl.
  destruct (sts_get_caller_identity c) as [e|owner_id]; [done|].
  rewrite trace_bind.
  destruct (outcome (scan_all _ _ _ _)) as [e|t]; [done|].
  by rewrite trace_bind.
Qed.

Lemma main_outcome c delete po :
  outcome (main c delete po)
  = match sts_get_caller_identity c with
    | inl e => inl e
    | inr owner_id =>
        match outcome (scan_all c (session_get_available_regions c)
                         owner_id po) with
        | inl e => inl e
        | inr t =>
            match outcome (if delete
                           then for_each (results t) (delete_orphans c)
                           else mret tt) with
            | inl e => inl e
            | inr _ => outcome (final_report t)
            end
        end
    end.
Proof.
  unfold main, call. rewrite outcome_bind. simpl.
  destruct (sts_get_caller_identity c) as [e|owner_id]; [done|].
  rewrite outcome_bind.
  destruct (outcome (scan_all _ _ _ _)) as [e|t]; [done|].
  by rewrite outcome_bind.
Qed.

(** X14. The phases of a run do not overlap. After the caller-identity
    request, the trace of [main] consists of listing requests and
    per-region lines only, then of delete-phase events only (announcements,
    ['deleting ...'] lines and delete requests), then of final-report lines
    only; this holds whether the run completes or raises. Without the
    delete flag the delete part is empty. *)
Theorem phases_in_order c delete po :
  ∃ t_scan t_del t_fin,
    trace (main c delete po)
    = Call GetCallerIdentity :: t_scan ++ t_del ++ t_fin
    ∧ Forall is_scan_event t_scan
    ∧ Forall is_delete_event t_del
    ∧ Forall is_total_event t_fin
    ∧ (delete = false → t_del = []).
Proof.
  rewrite main_trace.
  destruct (sts_get_caller_identity c) as [e|owner_id].
  { exists [], [], []. by split_and!. }
  pose proof (scan_all_scan_events c (session_get_available_regions c)
                owner_id po) as Hscan.
  destruct (outcome (scan_all _ _ _ _)) as [e|t].
  { eexists _, [], []. rewrite !app_nil_r. by split_and!. }
  assert (Hdel : Forall is_delete_event
            (trace (if delete then for_each (results t) (delete_orphans c)
                    else mret tt))).
  { destruct delete; [apply delete_phase_delete_events|constructor]. }
  eexists _, _, _. split_and!; [reflexivity|done|done| |].
  - destruct (outcome (if delete then _ else _));
      [constructor|apply final_report_total_events].
  - by intros ->.
Qed.

(** X15. The estimated-cost line is printed exactly by the runs that
    complete: a run that raises (at the identity request, during a scan, on
    a refused delete, or while computing the cost) never prints it, and a
    run that completes ends with it. *)
Theorem cost_line_iff_completes c delete po :
  (∃ cost, Print (LTotalCost cost) ∈ trace (main c delete po))
  ↔ outcome (main c delete po) = inr tt.
Proof.
  split.
  - intros [cost Hin]. rewrite main_trace in Hin. rewrite main_outcome.
    apply elem_of_cons in Hin as [?|Hin]; [done|].
    destruct (sts_get_caller_identity c) as [e|owner_id];
      [by apply elem_of_nil in Hin|].
    apply elem_of_app in Hin as [Hin|Hin].
    { pose proof (scan_all_scan_events c (session_get_available_regions c)
                    owner_id po) as Hscan.
      by apply (proj1 (Forall_forall _ _) Hscan) in Hin. }
    destruct (outcome (scan_all _ _ _ _)) as [e|t];
      [by apply elem_of_nil in Hin|].
    apply elem_of_app in Hin as [Hin|Hin].
    { assert (Hdel : Forall is_delete_event
                (trace (if delete then for_each (results t) (delete_orphans c)
                        else mret tt))).
      { destruct delete; [apply delete_phase_delete_events|constructor]. }
      by apply (proj1 (Forall_forall _ _) Hdel) in Hin. }
    destruct (outcome (if delete then _ else _)) as [e|[]];
      [by apply elem_of_nil in Hin|].
    revert Hin. unfold final_report, lift, print.
    destruct (total_cost_of (total_orphaned_size t)) as [e|x]; monad_simpl;
      [by intros ?%elem_of_nil|].
    destruct (Float.to_int x) as [e|n]; [|done].
    intros Hin.
    repeat (apply elem_of_cons in Hin as [?|Hin]; [done|]).
    by apply elem_of_nil in Hin.
  - intros (owner_id & t & x & cost & pre & _ & _ & _ & _ & _ & ->)%main_inr.
    exists cost. unfold final_lines. set_solver.
Qed.

(** ** What [--print-orphans] changes *)

Lemma filter_Forall_id {A : Type} (P : A → Prop) `{!∀ x, Decision (P x)}
    (l : list A) :
  Forall P l → filter P l = l.
Proof.
  induction 1 as [|x l Hx _ IH]; [done|].
  by rewrite filter_cons_True, IH.
Qed.

Lemma filter_Forall_nil {A : Type} (P : A → Prop) `{!∀ x, Decision (P x)}
    (l : list A) :
  Forall (λ x, ¬ P x) l → filter P l = [].
Proof.
  induction 1 as [|x l Hx _ IH]; [done|].
  by rewrite filter_cons_False, IH.
Qed.

Lemma aggregate_step_scanned po acc rep :
  trace (aggregate_step po acc (inr (Scanned rep)))
  = region_lines rep
    ++ (if po
        then trace (for_each (sorted (orphaned_snapshots rep)) (print_orphan rep))
        else [])
  ∧ outcome (aggregate_step po acc (inr (Scanned rep)))
    = match (if po
             then outcome (for_each (sorted (orphaned_snapshots rep))
                             (print_orphan rep))
             else inr tt) with
      | inl e => inl e
      | inr _ =>
          inr {| results := results acc ++ [rep];
                 total_size := total_size acc + snapshots_ami_size rep;
                 total_orphaned_size :=
                   total_orphaned_size acc + orphaned_size rep;
                 total_orphaned_snapshots :=
                   total_orphaned_snapshots acc
                   + Z.of_nat (size (orphaned_snapshots rep)) |}
      end.
Proof.
  unfold aggregate_step, lift. monad_simpl. destruct po; monad_simpl.
  - destruct (outcome (for_each _ _)) as [e|[]]; by rewrite ?app_nil_r.
  - done.
Qed.

Lemma aggregate_step_quiet acc f :
  (∀ rep, f = inr (Scanned rep) → well_keyed rep) →
  outcome (aggregate_step true acc f) = outcome (aggregate_step false acc f)
  ∧ filter not_orphan_event (trace (aggregate_step true acc f))
    = trace (aggregate_step false acc f).
Proof.
  intros Hwk. destruct f as [e|[rgn|rep]]; [done..|].
  destruct (aggregate_step_scanned true acc rep) as [-> ->].
  destruct (aggregate_step_scanned false acc rep) as [-> ->].
  rewrite verbose_listing
    by (intros sid ?%elem_of_sorted; by apply (Hwk rep)).
  split; [done|].
  rewrite filter_app, app_nil_r, filter_Forall_id by by repeat constructor.
  unfold trace. simpl.
  rewrite filter_Forall_nil; [done|].
  apply Forall_forall. intros ev (sid & _ & Hev)%list_elem_of_omap.
  destruct (snapshots rep !! sid); simplify_eq/=. by intros ?.
Qed.

Lemma aggregate_quiet fs acc :
  Forall (λ f, ∀ rep, f = inr (Scanned rep) → well_keyed rep) fs →
  outcome (foldM (aggregate_step true) acc fs)
  = outcome (foldM (aggregate_step false) acc fs)
  ∧ filter not_orphan_event (trace (foldM (aggregate_step true) acc fs))
    = trace (foldM (aggregate_step false) acc fs).
Proof.
  intros Hfs. revert acc.
  induction Hfs as [|f fs Hf _ IH]; intros acc; [done|].
  rewrite !foldM_cons, !outcome_bind, !trace_bind, filter_app.
  destruct (aggregate_step_quiet acc f Hf) as [-> ->].
  destruct (outcome (aggregate_step false acc f)) as [e|acc']; [done|].
  destruct (IH acc') as [-> ->]. done.
Qed.

Lemma submitted_well_keyed c regions owner_id :
  Forall (λ f, ∀ rep, f = inr (Scanned rep) → well_keyed rep)
    ((λ rgn, outcome (orphaned_ami_snapshots c rgn owner_id)) <$> regions).
Proof.
  apply Forall_fmap, Forall_forall. intros rgn _ rep. simpl.
  apply (scanned_well_keyed c owner_id). by exists rgn.
Qed.

Lemma scanner_quiet_events c rgn owner_id :
  Forall not_orphan_event (trace (orphaned_ami_snapshots c rgn owner_id)).
Proof.
  rewrite scanner_trace.
  destruct (ec2_describe_snapshots c rgn owner_id) as [e0|[|s snaps]];
    by repeat constructor.
Qed.

Lemma submit_all_quiet_events c regions owner_id :
  Forall not_orphan_event (trace (submit_all c regions owner_id)).
Proof.
  induction regions as [|rgn regions IH]; [constructor|].
  rewrite submit_all_cons. apply Forall_trace_bind.
  - apply scanner_quiet_events.
  - intros f _. apply Forall_trace_bind; [done|]. intros fs _. constructor.
Qed.

Lemma scan_all_quiet c regions owner_id :
  outcome (scan_all c regions owner_id true)
  = outcome (scan_all c regions owner_id false)
  ∧ filter not_orphan_event (trace (scan_all c regions owner_id true))
    = trace (scan_all c regions owner_id false).
Proof.
  unfold scan_all. rewrite !outcome_bind, !trace_bind, filter_app.
  destruct (submit_all_spec c regions owner_id) as [-> _].
  destruct (aggregate_quiet _ initial_totals
              (submitted_well_keyed c regions owner_id)) as [-> ->].
  split; [done|]. f_equal. apply filter_Forall_id, submit_all_quiet_events.
Qed.

Lemma printed_filter_quiet t :
  printed (filter not_orphan_event t)
  = filter (λ l, ¬ is_orphan_line l) (printed t).
Proof.
  induction t as [|[rq|l] t IH]; [done|..].
  - by rewrite filter_cons_True.
  - change (printed (Print l :: t)) with (l :: printed t).
    destruct (is_orphan_line l) eqn:Hl.
    + rewrite !filter_cons_False; [done|..];
        simpl; rewrite Hl; simpl; tauto.
    + rewrite !filter_cons_True; [|simpl; rewrite Hl; simpl; tauto..].
      change (printed (Print l :: filter not_orphan_event t))
        with (l :: printed (filter not_orphan_event t)).
      by rewrite IH.
Qed.

Lemma delete_calls_filter_quiet t :
  delete_calls (filter not_orphan_event t) = delete_calls t.
Proof.
  induction t as [|[rq|l] t IH]; [done|..].
  - rewrite filter_cons_True by done. simpl. by rewrite IH.
  - rewrite filter_cons. case_decide; simpl; by rewrite IH.
Qed.

Lemma delete_phase_quiet c reports :
  filter not_orphan_event (trace (for_each reports (delete_orphans c)))
  = trace (for_each reports (delete_orphans c)).
Proof.
  apply filter_Forall_id.
  eapply Forall_impl; [apply delete_phase_delete_events|].
  by intros [[]|[]].
Qed.

Lemma final_report_quiet t :
  filter not_orphan_event (trace (final_report t)) = trace (final_report t).
Proof.
  apply filter_Forall_id.
  eapply Forall_impl; [apply final_report_total_events|].
  by intros [[]|[]].
Qed.

Lemma main_quiet c delete :
  outcome (main c delete true) = outcome (main c delete false)
  ∧ filter not_orphan_event (trace (main c delete true))
    = trace (main c delete false).
Proof.
  rewrite !main_outcome, !main_trace, filter_cons_True by done.
  destruct (sts_get_caller_identity c) as [e|owner_id]; [done|].
  destruct (scan_all_quiet c (session_get_available_regions c) owner_id)
    as [-> <-].
  rewrite filter_app.
  destruct (outcome (scan_all _ _ _ false)) as [e|t];
    [by rewrite filter_nil|].
  split; [done|]. do 2 f_equal. rewrite filter_app. f_equal.
  - destruct delete; [apply delete_phase_quiet|done].
  - destruct (outcome (if delete then _ else _)); [done|].
    apply final_report_quiet.
Qed.

(** X16. [--print-orphans] only adds the lines of the verbose listing. With
    and without the flag a run has the same outcome and makes the same
    delete requests, and the lines it prints are the same once the lines of
    the verbose listing are left out. *)
Theorem print_orphans_only_adds_lines c delete :
  outcome (main c delete true) = outcome (main c delete false)
  ∧ filter (λ l, ¬ is_orphan_line l) (printed (trace (main c delete true)))
    = printed (trace (main c delete false))
  ∧ delete_calls (trace (main c delete true))
    = delete_calls (trace (main c delete false)).
Proof.
  destruct (main_quiet c delete) as [Ho Ht]. split_and!; [done|..].
  - by rewrite <- Ht, printed_filter_quiet.
  - by rewrite <- Ht, delete_calls_filter_quiet.
Qed.

(** ** Grand totals, and what gets deleted *)

(** X17. On a run that completes, the final report reads: a blank line;
    ['GB Total snapshot storage'] with the sum of [snapshots_ami_size] over
    the non-empty region results (the storage of snapshots tied to an
    image, not [snapshots_size]); the total number of orphaned snapshots,
    the sum of the sizes of the orphaned sets; the total orphaned size; the
    cost line. *)
Theorem final_report_totals c delete po :
  outcome (main c delete po) = inr tt →
  ∃ owner_id pre cost,
    sts_get_caller_identity c = inr owner_id
    ∧ trace (main c delete po)
      = pre ++
        [ Print LBlank;
          Print (LTotalSize
                   (Zsum (snapshots_ami_size <$> scanned_reports c owner_id)));
          Print (LTotalOrphaned
                   (Zsum ((λ rep, Z.of_nat (size (orphaned_snapshots rep)))
                          <$> scanned_reports c owner_id)));
          Print (LTotalOrphanedSize
                   (Zsum (orphaned_size <$> scanned_reports c owner_id)));
          Print (LTotalCost cost) ].
Proof.
  intros (owner_id & t & x & cost & pre & Hid & Hscan & _ & _ & _ & Htr)%main_inr.
  apply scan_all_inr in Hscan as (_ & Hsize & Hosize & Hcount).
  exists owner_id, pre, cost. split; [done|].
  by rewrite Htr, <- Hsize, <- Hosize, <- Hcount.
Qed.

Lemma elem_of_delete_plan reports rgn sid :
  (rgn, sid) ∈ delete_plan reports →
  ∃ rep, rep ∈ reports ∧ region rep = rgn ∧ sid ∈ orphaned_snapshots rep.
Proof.
  unfold delete_plan. rewrite list_elem_of_bind.
  intros (rep & Hin & [_ Hrep]%list_elem_of_filter).
  apply list_elem_of_fmap in Hin as (sid' & [= -> ->] & Hsid).
  exists rep. split_and!; [done..|]. by apply elem_of_sorted.
Qed.

Lemma elem_of_scanned_reports c owner_id rep :
  rep ∈ scanned_reports c owner_id →
  ∃ rgn, rgn ∈ session_get_available_regions c
         ∧ outcome (orphaned_ami_snapshots c rgn owner_id) = inr (Scanned rep).
Proof.
  unfold scanned_reports. intros (rgn & Hin & Hrep)%list_elem_of_omap.
  exists rgn. split; [done|].
  destruct (outcome _) as [e|[r|rep']]; simplify_eq/=. done.
Qed.

(** X18. Only orphans are deleted. Every delete request of a run is sent
    to one of the available regions, for the id of a snapshot that the
    region's own listing contains and whose description names an image id
    absent from the region's image listing. *)
Theorem deletes_only_orphans c po rgn sid :
  (rgn, sid) ∈ delete_calls (trace (main c true po)) →
  ∃ owner_id snaps images s ami,
    sts_get_caller_identity c = inr owner_id
    ∧ rgn ∈ session_get_available_regions c
    ∧ ec2_describe_snapshots c rgn owner_id = inr snaps
    ∧ ec2_describe_images c rgn = inr images
    ∧ s ∈ snaps ∧ SnapshotId s = sid
    ∧ inferred_ami (Description s) = Some ami
    ∧ ami ∉ ImageId <$> images.
Proof.
  intros Hin. pose proof (main_deletes c po) as Hm.
  destruct (sts_get_caller_identity c) as [e|owner_id];
    [injection Hm as Hm _; rewrite Hm in Hin; by apply elem_of_nil in Hin|].
  destruct (outcome (scan_all _ _ _ _)) as [e|t] eqn:Hscan;
    [injection Hm as Hm _; rewrite Hm in Hin; by apply elem_of_nil in Hin|].
  apply scan_all_inr in Hscan as (Hres & _).
  pose proof (attempt_prefix c (delete_plan (results t))) as [rest Hp].
  assert ((rgn, sid) ∈ delete_plan (results t)) as Hplan.
  { rewrite Hp. apply elem_of_app. left.
    destruct (attempt c _) as [made [e|[]]]; by injection Hm as <- _. }
  rewrite Hres in Hplan.
  apply elem_of_delete_plan in Hplan as (rep & Hrep & Hrgn & Hsid).
  apply elem_of_scanned_reports in Hrep as (rgn' & Hrgn' & Hrun).
  apply scanner_report in Hrun as (snaps & images & Hs & Hi & ->).
  simpl in Hrgn, Hsid. subst rgn'.
  apply elem_of_orphans in Hsid as (ami & Hl & Hn).
  apply scan_loop_ami_Some in Hl as (s & Hs' & Hid & Hami).
  exists owner_id, snaps, images, s, ami.
  split_and!; [done..|]. by rewrite <- elem_of_collect_amis.
Qed.

(** ** The log of the delete phase *)

Lemma delete_region_trace c rgn ids :
  outcome (for_each ids (delete_snapshot c rgn)) = inr tt →
  trace (for_each ids (delete_snapshot c rgn))
  = ids ≫= (λ sid, [Print (LDeleting sid); Call (DeleteSnapshot rgn sid)]).
Proof.
  induction ids as [|sid ids IH]; [done|].
  rewrite for_each_cons, outcome_bind, trace_bind, bind_cons.
  unfold delete_snapshot at 1 2 3 4, call, print. monad_simpl.
  destruct (ec2_delete_snapshot c rgn sid) as [e|[]]; [done|].
  intros Hok. by rewrite IH.
Qed.

Lemma delete_orphans_trace c rep :
  outcome (delete_orphans c rep) = inr tt →
  trace (delete_orphans c rep) = region_delete_script rep.
Proof.
  unfold delete_orphans, region_delete_script. case_bool_decide as He.
  - by rewrite decide_True.
  - rewrite decide_False by done. monad_simpl. intros Hok.
    by rewrite delete_region_trace.
Qed.

Lemma delete_phase_trace c reports :
  outcome (for_each reports (delete_orphans c)) = inr tt →
  trace (for_each reports (delete_orphans c)) = delete_script reports.
Proof.
  unfold delete_script. induction reports as [|rep reports IH]; [done|].
  rewrite for_each_cons, outcome_bind, trace_bind, bind_cons.
  destruct (outcome (delete_orphans c rep)) as [e|[]] eqn:Hrep; [done|].
  intros Hok. by rewrite delete_orphans_trace, IH.
Qed.

(** X19. On a run with the delete flag that completes, the delete phase
    logs, for each non-empty region result in order that has orphans: one
    ['deleting N snapshots from REGION'] line with N the number of orphans,
    then for every orphaned id in [sorted] order the line ['deleting ID']
    immediately followed by the delete request for that id in that region.
    Regions without orphans log nothing. Before it come only scan-phase
    events, after it only the final report. *)
Theorem delete_phase_log c po :
  outcome (main c true po) = inr tt →
  ∃ owner_id t_scan t_fin,
    sts_get_caller_identity c = inr owner_id
    ∧ trace (main c true po)
      = Call GetCallerIdentity
        :: t_scan ++ delete_script (scanned_reports c owner_id) ++ t_fin
    ∧ Forall is_scan_event t_scan
    ∧ Forall is_total_event t_fin.
Proof.
  rewrite main_outcome, main_trace.
  destruct (sts_get_caller_identity c) as [e|owner_id]; [done|].
  pose proof (scan_all_scan_events c (session_get_available_regions c)
                owner_id po) as Hscan.
  destruct (outcome (scan_all _ _ _ _)) as [e|t] eqn:Ht; [done|].
  apply scan_all_inr in Ht as (Hres & _).
  destruct (outcome (for_each _ _)) as [e|[]] eqn:Hdel; [done|].
  intros _. eexists owner_id, _, _. split_and!; [done| |done|].
  - by rewrite delete_phase_trace, Hres.
  - apply final_report_total_events.
Qed.

(** ** Errors during the scan phase *)

Lemma foldM_app_outcome {A S : Type} (step : S → A → M S) (l1 l2 : list A) s :
  outcome (foldM step s (l1 ++ l2))
  = match outcome (foldM step s l1) with
    | inl e => inl e
    | inr s' => outcome (foldM step s' l2)
    end.
Proof.
  revert s. induction l1 as [|a l1 IH]; intros s; [done|].
  rewrite <- app_comm_cons, !foldM_cons, !outcome_bind.
  destruct (outcome (step s a)) as [e|s']; [done|]. apply IH.
Qed.

Lemma aggregate_quiet_ok fs acc :
  Forall (λ f : result ScanResult, ∃ res, f = inr res) fs →
  ∃ t, outcome (foldM (aggregate_step false) acc fs) = inr t.
Proof.
  intros Hfs. revert acc.
  induction Hfs as [|f fs [res ->] _ IH]; intros acc; [by exists acc|].
  rewrite foldM_cons, outcome_bind. destruct res as [rgn|rep].
  - unfold aggregate_step, lift. monad_simpl. apply IH.
  - destruct (aggregate_step_scanned false acc rep) as [_ ->]. apply IH.
Qed.

(** X20. A failed scan aborts the run before anything is deleted, and the
    error reported is that of the first failing region in the order of the
    region list, whatever the order in which the scans ran: if the scans of
    the regions before [rgn] returned and the scan of [rgn] raised [e], then
    [main] raises [e] and makes no delete request. *)
Theorem first_scan_error_propagates c delete po owner_id r1 rgn r2 e :
  sts_get_caller_identity c = inr owner_id →
  session_get_available_regions c = r1 ++ rgn :: r2 →
  (∀ r, r ∈ r1 →
        ∃ res, outcome (orphaned_ami_snapshots c r owner_id) = inr res) →
  outcome (orphaned_ami_snapshots c rgn owner_id) = inl e →
  outcome (main c delete po) = inl e
  ∧ delete_calls (trace (main c delete po)) = [].
Proof.
  intros Hid Hregions Hok Hfail.
  assert (Hscan : outcome (scan_all c (session_get_available_regions c)
                             owner_id po) = inl e).
  { assert (outcome (scan_all c (session_get_available_regions c)
                       owner_id false) = inl e) as Hq.
    { unfold scan_all. rewrite outcome_bind.
      destruct (submit_all_spec c (session_get_available_regions c) owner_id)
        as [-> _].
      rewrite Hregions, fmap_app, fmap_cons, foldM_app_outcome.
      destruct (aggregate_quiet_ok
                  ((λ r, outcome (orphaned_ami_snapshots c r owner_id)) <$> r1)
                  initial_totals) as [t ->].
      { apply Forall_fmap, Forall_forall. intros r Hr. by apply Hok. }
      rewrite foldM_cons, outcome_bind, Hfail. done. }
    destruct po; [|done].
    by destruct (scan_all_quiet c (session_get_available_regions c) owner_id)
      as [-> _]. }
  split.
  - by rewrite main_outcome, Hid, Hscan.
  - rewrite main_trace, Hid, Hscan, app_nil_r.
    change (delete_calls (Call GetCallerIdentity :: ?t)) with (delete_calls t).
    apply scan_all_no_deletes.
Qed.

(** * Worked instances of the further properties *)

Lemma example_scan :
  outcome (orphaned_ami_snapshots (example_cloud []) "us-east-1" example_owner)
  = inr (Scanned example_report).
Proof. vm_compute. reflexivity. Defined.

Lemma recorded_image_ids_well_formed_witness :
  outcome (orphaned_ami_snapshots (example_cloud []) "us-east-1" example_owner)
  = inr (Scanned example_report)
  ∧ snapshot_to_ami example_report !! "snap-a" = Some "ami-0003"
  ∧ "ami-0003" ≠ "" ∧ free_of ami_stop "ami-0003".
Proof.
  split; [exact example_scan|]. split; [vm_compute; reflexivity|].
  apply (recorded_image_ids_well_formed (example_cloud []) "us-east-1"
           example_owner example_report example_scan "snap-a").
  vm_compute. reflexivity.
Defined.

Lemma dicts_keep_last_entry_witness :
  outcome (orphaned_ami_snapshots (example_cloud []) "us-east-1" example_owner)
  = inr (Scanned example_report)
  ∧ snapshots example_report !! "snap-c"
    = Some (example_snapshot "snap-c" "nightly backup of build cache" 30)
  ∧ snapshot_to_ami example_report !! "snap-c" = None.
Proof.
  split; [exact example_scan|].
  destruct (dicts_keep_last_entry (example_cloud []) "us-east-1" example_owner
              example_report (example_snapshots "us-east-1")
              example_scan eq_refl "snap-c") as [-> ->].
  split; vm_compute; reflexivity.
Defined.

Lemma listed_snapshot_lookup_witness :
  NoDup (SnapshotId <$> example_snapshots "us-east-1")
  ∧ snapshots example_report !! "snap-b"
    = Some (example_snapshot "snap-b"
              "Created by CreateImage(i-123) for ami-0001" 8)
  ∧ snapshot_to_ami example_report !! "snap-b" = Some "ami-0001".
Proof.
  assert (Hnd : NoDup (SnapshotId <$> example_snapshots "us-east-1"))
    by by_decide.
  split; [exact Hnd|].
  apply (listed_snapshot_lookup (example_cloud []) "us-east-1" example_owner
           example_report (example_snapshots "us-east-1")
           (example_snapshot "snap-b"
              "Created by CreateImage(i-123) for ami-0001" 8)
           example_scan eq_refl Hnd).
  vm_compute. constructor.
Defined.

Lemma snapshots_keys_are_listed_ids_witness :
  outcome (orphaned_ami_snapshots (example_cloud []) "us-east-1" example_owner)
  = inr (Scanned example_report)
  ∧ dom (snapshots example_report)
    = list_to_set (SnapshotId <$> example_snapshots "us-east-1")
  ∧ Z.of_nat (size (snapshots example_report)) ≤ snapshot_count example_report.
Proof.
  split; [exact example_scan|].
  destruct (snapshots_keys_are_listed_ids (example_cloud []) "us-east-1"
              example_owner example_report (example_snapshots "us-east-1")
              example_scan eq_refl) as (Hdom & Hle & _).
  split; [exact Hdom | exact Hle].
Defined.

Lemma sizes_over_listing_witness :
  NoDup (SnapshotId <$> example_snapshots "us-east-1")
  ∧ snapshots_size example_report = 40
  ∧ snapshots_ami_size example_report = 10
  ∧ orphaned_size example_report = 10.
Proof.
  assert (Hnd : NoDup (SnapshotId <$> example_snapshots "us-east-1"))
    by by_decide.
  split; [exact Hnd|].
  destruct (sizes_over_listing (example_cloud []) "us-east-1" example_owner
              example_report (example_snapshots "us-east-1")
              [ {| ImageId := "ami-0002" |} ]
              example_scan eq_refl eq_refl Hnd) as (-> & -> & ->).
  split_and!; vm_compute; reflexivity.
Defined.

Lemma more_images_fewer_orphans_witness :
  orphaned_snapshots
    (report_for "us-east-1" (example_snapshots "us-east-1") all_example_images)
  ⊆ orphaned_snapshots example_report.
Proof.
  destruct (more_images_fewer_orphans
              (example_cloud [])
              (account (λ rgn, inr (example_snapshots rgn))
                 (inr all_example_images))
              "us-east-1" example_owner example_report
              (report_for "us-east-1" (example_snapshots "us-east-1")
                 all_example_images)
              [ {| ImageId := "ami-0002" |} ] all_example_images)
    as (Hsub & _).
  - exact example_scan.
  - vm_compute. reflexivity.
  - reflexivity.
  - reflexivity.
  - reflexivity.
  - intros ami Hin. apply list_elem_of_singleton in Hin as ->. by_decide.
  - exact Hsub.
Defined.

Lemma no_images_all_orphaned_witness :
  orphaned_snapshots
    (report_for "eu-west-1" (example_snapshots "eu-west-1") [])
  = {[ "snap-z" ]}.
Proof.
  destruct (no_images_all_orphaned
              (account (λ rgn, inr (example_snapshots rgn)) (inr []))
              "eu-west-1" example_owner
              (report_for "eu-west-1" (example_snapshots "eu-west-1") []))
    as [-> _].
  - vm_compute. reflexivity.
  - reflexivity.
  - vm_compute. reflexivity.
Defined.

Lemma all_registered_nothing_to_delete_witness :
  delete_orphans (example_cloud ["snap-b"])
    (report_for "us-east-1" (example_snapshots "us-east-1") all_example_images)
  = ([], inr tt).
Proof.
  destruct (all_registered_nothing_to_delete
              (account (λ rgn, inr (example_snapshots rgn))
                 (inr all_example_images))
              "us-east-1" example_owner
              (report_for "us-east-1" (example_snapshots "us-east-1")
                 all_example_images)
              all_example_images)
    as (_ & _ & Hdel).
  - vm_compute. reflexivity.
  - reflexivity.
  - intros sid ami Hl.
    assert (snapshot_to_ami
              (report_for "us-east-1" (example_snapshots "us-east-1")
                 all_example_images)
            = {[ "snap-a" := "ami-0003"; "snap-b" := "ami-0001" ]}) as Hm
      by (vm_compute; reflexivity).
    rewrite Hm in Hl.
    apply lookup_insert_Some in Hl as [[_ <-]|[_ Hl]]; [by_decide|].
    apply lookup_singleton_Some in Hl as [_ <-]. by_decide.
  - apply Hdel.
Defined.

Lemma rescan_after_prune_witness :
  orphaned_snapshots
    (report_for "us-east-1" (pruned_snapshots "us-east-1")
       [ {| ImageId := "ami-0002" |} ]) = ∅.
Proof.
  destruct (rescan_after_prune
              (example_cloud [])
              (account (λ rgn, inr (pruned_snapshots rgn))
                 (inr [ {| ImageId := "ami-0002" |} ]))
              "us-east-1" example_owner example_report
              (report_for "us-east-1" (pruned_snapshots "us-east-1")
                 [ {| ImageId := "ami-0002" |} ])
              (example_snapshots "us-east-1"))
    as (Hempty & _).
  - exact example_scan.
  - reflexivity.
  - reflexivity.
  - reflexivity.
  - vm_compute. reflexivity.
  - exact Hempty.
Defined.

Lemma verbose_listing_lines_witness :
  ∃ listed,
    for_each (sorted (orphaned_snapshots example_report))
      (print_orphan example_report)
    = (Print ∘ orphan_line <$> listed, inr tt)
    ∧ SnapshotId <$> listed = ["snap-a"; "snap-b"].
Proof.
  destruct (verbose_listing_lines (example_cloud []) "us-east-1" example_owner
              example_report example_scan) as (listed & Htr & Hids & _).
  exists listed. split; [exact Htr|]. rewrite Hids. vm_compute. reflexivity.
Defined.

Lemma final_report_totals_witness :
  outcome (main (example_cloud []) true false) = inr tt
  ∧ ∃ pre cost,
      trace (main (example_cloud []) true false)
      = pre ++ [ Print LBlank; Print (LTotalSize 15); Print (LTotalOrphaned 2);
                 Print (LTotalOrphanedSize 10); Print (LTotalCost cost) ].
Proof.
  assert (Hrun : outcome (main (example_cloud []) true false) = inr tt)
    by (vm_compute; reflexivity).
  split; [exact Hrun|].
  destruct (final_report_totals _ _ _ Hrun)
    as (owner_id & pre & cost & Hid & Htr).
  injection Hid as <-. exists pre, cost. exact Htr.
Defined.

Lemma deletes_only_orphans_witness :
  ("us-east-1", "snap-a")
    ∈ delete_calls (trace (main (example_cloud ["snap-b"]) true false))
  ∧ ∃ s ami,
      s ∈ example_snapshots "us-east-1" ∧ SnapshotId s = "snap-a"
      ∧ inferred_ami (Description s) = Some ami
      ∧ ami ∉ ImageId <$> [ {| ImageId := "ami-0002" |} ].
Proof.
  assert (Hin : ("us-east-1", "snap-a")
            ∈ delete_calls (trace (main (example_cloud ["snap-b"]) true false)))
    by (vm_compute; constructor).
  split; [exact Hin|].
  destruct (deletes_only_orphans _ _ _ _ Hin)
    as (owner_id & snaps & images & s & ami & Hid & _ & Hs & Hi & H).
  injection Hid as <-. injection Hs as <-. injection Hi as <-.
  exists s, ami. exact H.
Defined.

Lemma delete_phase_log_witness :
  outcome (main (example_cloud []) true false) = inr tt
  ∧ delete_script (scanned_reports (example_cloud []) example_owner)
    = [ Print (LDeletingFrom 2 "us-east-1");
        Print (LDeleting "snap-a"); Call (DeleteSnapshot "us-east-1" "snap-a");
        Print (LDeleting "snap-b"); Call (DeleteSnapshot "us-east-1" "snap-b") ]
  ∧ ∃ t_scan t_fin,
      trace (main (example_cloud []) true false)
      = Call GetCallerIdentity
        :: t_scan ++ delete_script (scanned_reports (example_cloud [])
                                      example_owner) ++ t_fin.
Proof.
  assert (Hrun : outcome (main (example_cloud []) true false) = inr tt)
    by (vm_compute; reflexivity).
  split; [exact Hrun|]. split; [vm_compute; reflexivity|].
  destruct (delete_phase_log _ _ Hrun)
    as (owner_id & t_scan & t_fin & Hid & Htr & _).
  injection Hid as <-. exists t_scan, t_fin. exact Htr.
Defined.

Lemma first_scan_error_propagates_witness :
  outcome (orphaned_ami_snapshots account_with_failing_region "us-west-2"
             example_owner) = inl (ClientError "AuthFailure")
  ∧ outcome (main account_with_failing_region true true)
    = inl (ClientError "AuthFailure")
  ∧ delete_calls (trace (main account_with_failing_region true true)) = [].
Proof.
  split; [reflexivity|].
  apply (first_scan_error_propagates account_with_failing_region true true
           example_owner ["us-east-1"] "us-west-2" ["eu-west-1"]).
  - reflexivity.
  - reflexivity.
  - intros r Hr. apply list_elem_of_singleton in Hr as ->.
    eexists. vm_compute. reflexivity.
  - reflexivity.
Defined.

Lemma cost_line_iff_completes_witness :
  outcome (main (example_cloud []) false false) = inr tt
  ∧ ∃ cost, Print (LTotalCost cost)
            ∈ trace (main (example_cloud []) false false).
Proof.
  assert (Hrun : outcome (main (example_cloud []) false false) = inr tt)
    by (vm_compute; reflexivity).
  split; [exact Hrun|].
  exact (proj2 (cost_line_iff_completes _ _ _) Hrun).
Defined.
